(** * Fact builder of the COMP0174 analyser (analyse.py)

    A shallow embedding of the AST-to-facts builder of [analyse.py]
    (the expression classifier, [ExpressionVisitor], [StatementVisitor],
    [generate_cfg]), with the properties of the specification stated
    over it.  The fact file writer and reader ([write_relations],
    [load_relations]), [check_relations] and [pprint] are not part of
    the embedding.

    Python sets are [gset string]: their iteration order is not fixed by
    the language and no statement below depends on it. *)

From stdpp Require Import base strings gmap list pretty.

Open Scope string_scope.
Open Scope list_scope.

(** ** The syntax tree

    The nodes of pycparser's [c_ast] that the visitors dispatch on, one
    constructor per class, with the fields the source reads.  [PyNone]
    is Python's [None] sitting in a node-valued field; [Other kind] is a
    node of any class without a [visit_] method ([ArrayRef], [For],
    [Decl], [TernaryOp], ...), [kind] being its class name.  A field
    holding a list that may be [None] is an [option].

    The calls of the model are the calls of a named function, [f(...)]:
    the callee is an [ID] and [name] is [n.name.name], its string.  A
    call through any other expression (a dereferenced function pointer,
    [f(1)(2)], [s.f()]) is not a tree of the model: there the source
    reads [.name] off the callee node, which raises [AttributeError] or
    yields a node object in place of a string.  Every statement below is about the trees of
    the model. *)

#[warnings="-register-all"]
Inductive node : Type :=
  | PyNone
  | Constant (value : string)
  | ID (name : string)
  | UnaryOp (op : string) (expr : node)
  | BinaryOp (op : string) (left right : node)
  | FileAST (ext : list node)
  | FuncDef (decl_name : string) (body : node)
  | Compound (block_items : option (list node))
  | If (cond iftrue iffalse : node)
  | FuncCall (name : string) (args : option (list node))
  | While (cond stmt : node)
  | Assignment (op : string) (lvalue rvalue : node)
  | Return (expr : node)
  | Other (kind : string).

(** [n.__class__.__name__] *)
Definition class_name (n : node) : string :=
  match n with
  | PyNone => "NoneType"
  | Constant _ => "Constant"
  | ID _ => "ID"
  | UnaryOp _ _ => "UnaryOp"
  | BinaryOp _ _ _ => "BinaryOp"
  | FileAST _ => "FileAST"
  | FuncDef _ _ => "FuncDef"
  | Compound _ => "Compound"
  | If _ _ _ => "If"
  | FuncCall _ _ => "FuncCall"
  | While _ _ => "While"
  | Assignment _ _ _ => "Assignment"
  | Return _ => "Return"
  | Other kind => kind
  end.

Definition is_None (n : node) : bool :=
  match n with PyNone => true | _ => false end.

(** ** Exceptions and results *)

Inductive exn_arg : Type :=
  | ArgStr (s : string)
  | ArgNode (n : node).

Inductive exn : Type :=
  | UnsupportedLanguageConstruct (arg : exn_arg)
  | AssertionError
  | NameError (name : string)
  | TypeError
  | ValueError.

Inductive result (A : Type) : Type :=
  | Ok (a : A)
  | Raise (e : exn).
Arguments Ok {A} a.
Arguments Raise {A} e.

Definition is_Ok {A} (r : result A) : bool :=
  match r with Ok _ => true | Raise _ => false end.

Definition is_unsupported {A} (r : result A) : bool :=
  match r with
  | Raise (UnsupportedLanguageConstruct _) => true
  | _ => false
  end.

(** ** The single-shape tests *)

Definition is_deref (n : node) : option string :=
  match n with
  | UnaryOp op (ID name) => if String.eqb op "*" then Some name else None
  | _ => None
  end.

Definition is_address (n : node) : option string :=
  match n with
  | UnaryOp op (ID name) => if String.eqb op "&" then Some name else None
  | _ => None
  end.

Definition is_var (n : node) : option string :=
  match n with
  | ID name => Some name
  | _ => None
  end.

Definition is_const (n : node) : option string :=
  match n with
  | Constant value => Some value
  | _ => None
  end.

(** The truth value Python gives the result of a shape test in
    [if is_deref(n):] : [None] and the empty string are false. *)
Definition truthy (r : option string) : bool :=
  match r with
  | Some s => negb (String.eqb s "")
  | None => false
  end.

(** What a shape test returned, read where it was found true. *)
Definition the (r : option string) : string := default "" r.

(** ** ExpressionVisitor: the recursive read-scan *)

Record ExpressionVisitor : Type := mkExpressionVisitor {
  variables : gset string;
  deref_variables : gset string
}.

Definition ExpressionVisitor_init : ExpressionVisitor :=
  {| variables := ∅; deref_variables := ∅ |}.

Module ExpressionVisitor.

Fixpoint visit (n : node) (self : ExpressionVisitor)
    : result ExpressionVisitor :=
  match n with
  | Constant _ => Ok self
  | ID name =>
      Ok {| variables := variables self ∪ {[name]};
            deref_variables := deref_variables self |}
  | UnaryOp _ expr =>
      if truthy (is_deref n) then
        Ok {| variables := variables self;
              deref_variables := deref_variables self ∪ {[the (is_deref n)]} |}
      else visit expr self
  | BinaryOp _ l r =>
      match visit l self with
      | Ok self' => visit r self'
      | Raise e => Raise e
      end
  | _ => Raise (UnsupportedLanguageConstruct (ArgStr (class_name n)))
  end.

End ExpressionVisitor.

(** ** StatementVisitor: the label counter and the relations

    One field per key of [self.edb], a list in insertion order.  The
    graphviz object [self.cfg] only renders the same nodes and arcs and
    is left out. *)

Record StatementVisitor : Type := mkStatementVisitor {
  availabe_label_index : nat;
  edb_flow : list (string * string);
  edb_label : list (string);
  edb_variable : list (string);
  edb_assignment : list (string);
  edb_condition : list (string);
  edb_return : list (string);
  edb_call : list (string * string);
  edb_function : list (string);
  edb_used : list (string * string);
  edb_defined : list (string * string);
  edb_defined_deref : list (string * string);
  edb_used_deref : list (string * string);
  edb_rhs_var : list (string * string);
  edb_rhs_const : list (string * string);
  edb_rhs_deref : list (string * string);
  edb_rhs_address : list (string * string);
  edb_call_arg_var : list (string * string * string);
  edb_call_arg_const : list (string * string * string);
  edb_call_arg_deref : list (string * string * string)
}.

(** [self.edb[key] = xs], one setter per key, and the counter. *)

Definition set_label_index (i : nat) (v : StatementVisitor) : StatementVisitor :=
  {| availabe_label_index := i; edb_flow := edb_flow v;
     edb_label := edb_label v; edb_variable := edb_variable v;
     edb_assignment := edb_assignment v; edb_condition := edb_condition v;
     edb_return := edb_return v; edb_call := edb_call v;
     edb_function := edb_function v; edb_used := edb_used v;
     edb_defined := edb_defined v; edb_defined_deref := edb_defined_deref v;
     edb_used_deref := edb_used_deref v; edb_rhs_var := edb_rhs_var v;
     edb_rhs_const := edb_rhs_const v; edb_rhs_deref := edb_rhs_deref v;
     edb_rhs_address := edb_rhs_address v; edb_call_arg_var := edb_call_arg_var v;
     edb_call_arg_const := edb_call_arg_const v; edb_call_arg_deref := edb_call_arg_deref v |}.

Definition set_flow (xs : list (string * string)) (v : StatementVisitor) : StatementVisitor :=
  {| availabe_label_index := availabe_label_index v; edb_flow := xs;
     edb_label := edb_label v; edb_variable := edb_variable v;
     edb_assignment := edb_assignment v; edb_condition := edb_condition v;
     edb_return := edb_return v; edb_call := edb_call v;
     edb_function := edb_function v; edb_used := edb_used v;
     edb_defined := edb_defined v; edb_defined_deref := edb_defined_deref v;
     edb_used_deref := edb_used_deref v; edb_rhs_var := edb_rhs_var v;
     edb_rhs_const := edb_rhs_const v; edb_rhs_deref := edb_rhs_deref v;
     edb_rhs_address := edb_rhs_address v; edb_call_arg_var := edb_call_arg_var v;
     edb_call_arg_const := edb_call_arg_const v; edb_call_arg_deref := edb_call_arg_deref v |}.

Definition set_label (xs : list (string)) (v : StatementVisitor) : StatementVisitor :=
  {| availabe_label_index := availabe_label_index v; edb_flow := edb_flow v;
     edb_label := xs; edb_variable := edb_variable v;
     edb_assignment := edb_assignment v; edb_condition := edb_condition v;
     edb_return := edb_return v; edb_call := edb_call v;
     edb_function := edb_function v; edb_used := edb_used v;
     edb_defined := edb_defined v; edb_defined_deref := edb_defined_deref v;
     edb_used_deref := edb_used_deref v; edb_rhs_var := edb_rhs_var v;
     edb_rhs_const := edb_rhs_const v; edb_rhs_deref := edb_rhs_deref v;
     edb_rhs_address := edb_rhs_address v; edb_call_arg_var := edb_call_arg_var v;
     edb_call_arg_const := edb_call_arg_const v; edb_call_arg_deref := edb_call_arg_deref v |}.

Definition set_variable (xs : list (string)) (v : StatementVisitor) : StatementVisitor :=
  {| availabe_label_index := availabe_label_index v; edb_flow := edb_flow v;
     edb_label := edb_label v; edb_variable := xs;
     edb_assignment := edb_assignment v; edb_condition := edb_condition v;
     edb_return := edb_return v; edb_call := edb_call v;
     edb_function := edb_function v; edb_used := edb_used v;
     edb_defined := edb_defined v; edb_defined_deref := edb_defined_deref v;
     edb_used_deref := edb_used_deref v; edb_rhs_var := edb_rhs_var v;
     edb_rhs_const := edb_rhs_const v; edb_rhs_deref := edb_rhs_deref v;
     edb_rhs_address := edb_rhs_address v; edb_call_arg_var := edb_call_arg_var v;
     edb_call_arg_const := edb_call_arg_const v; edb_call_arg_deref := edb_call_arg_deref v |}.

Definition set_assignment (xs : list (string)) (v : StatementVisitor) : StatementVisitor :=
  {| availabe_label_index := availabe_label_index v; edb_flow := edb_flow v;
     edb_label := edb_label v; edb_variable := edb_variable v;
     edb_assignment := xs; edb_condition := edb_condition v;
     edb_return := edb_return v; edb_call := edb_call v;
     edb_function := edb_function v; edb_used := edb_used v;
     edb_defined := edb_defined v; edb_defined_deref := edb_defined_deref v;
     edb_used_deref := edb_used_deref v; edb_rhs_var := edb_rhs_var v;
     edb_rhs_const := edb_rhs_const v; edb_rhs_deref := edb_rhs_deref v;
     edb_rhs_address := edb_rhs_address v; edb_call_arg_var := edb_call_arg_var v;
     edb_call_arg_const := edb_call_arg_const v; edb_call_arg_deref := edb_call_arg_deref v |}.

Definition set_condition (xs : list (string)) (v : StatementVisitor) : StatementVisitor :=
  {| availabe_label_index := availabe_label_index v; edb_flow := edb_flow v;
     edb_label := edb_label v; edb_variable := edb_variable v;
     edb_assignment := edb_assignment v; edb_condition := xs;
     edb_return := edb_return v; edb_call := edb_call v;
     edb_function := edb_function v; edb_used := edb_used v;
     edb_defined := edb_defined v; edb_defined_deref := edb_defined_deref v;
     edb_used_deref := edb_used_deref v; edb_rhs_var := edb_rhs_var v;
     edb_rhs_const := edb_rhs_const v; edb_rhs_deref := edb_rhs_deref v;
     edb_rhs_address := edb_rhs_address v; edb_call_arg_var := edb_call_arg_var v;
     edb_call_arg_const := edb_call_arg_const v; edb_call_arg_deref := edb_call_arg_deref v |}.

Definition set_return (xs : list (string)) (v : StatementVisitor) : StatementVisitor :=
  {| availabe_label_index := availabe_label_index v; edb_flow := edb_flow v;
     edb_label := edb_label v; edb_variable := edb_variable v;
     edb_assignment := edb_assignment v; edb_condition := edb_condition v;
     edb_return := xs; edb_call := edb_call v;
     edb_function := edb_function v; edb_used := edb_used v;
     edb_defined := edb_defined v; edb_defined_deref := edb_defined_deref v;
     edb_used_deref := edb_used_deref v; edb_rhs_var := edb_rhs_var v;
     edb_rhs_const := edb_rhs_const v; edb_rhs_deref := edb_rhs_deref v;
     edb_rhs_address := edb_rhs_address v; edb_call_arg_var := edb_call_arg_var v;
     edb_call_arg_const := edb_call_arg_const v; edb_call_arg_deref := edb_call_arg_deref v |}.

Definition set_call (xs : list (string * string)) (v : StatementVisitor) : StatementVisitor :=
  {| availabe_label_index := availabe_label_index v; edb_flow := edb_flow v;
     edb_label := edb_label v; edb_variable := edb_variable v;
     edb_assignment := edb_assignment v; edb_condition := edb_condition v;
     edb_return := edb_return v; edb_call := xs;
     edb_function := edb_function v; edb_used := edb_used v;
     edb_defined := edb_defined v; edb_defined_deref := edb_defined_deref v;
     edb_used_deref := edb_used_deref v; edb_rhs_var := edb_rhs_var v;
     edb_rhs_const := edb_rhs_const v; edb_rhs_deref := edb_rhs_deref v;
     edb_rhs_address := edb_rhs_address v; edb_call_arg_var := edb_call_arg_var v;
     edb_call_arg_const := edb_call_arg_const v; edb_call_arg_deref := edb_call_arg_deref v |}.

Definition set_function (xs : list (string)) (v : StatementVisitor) : StatementVisitor :=
  {| availabe_label_index := availabe_label_index v; edb_flow := edb_flow v;
     edb_label := edb_label v; edb_variable := edb_variable v;
     edb_assignment := edb_assignment v; edb_condition := edb_condition v;
     edb_return := edb_return v; edb_call := edb_call v;
     edb_function := xs; edb_used := edb_used v;
     edb_defined := edb_defined v; edb_defined_deref := edb_defined_deref v;
     edb_used_deref := edb_used_deref v; edb_rhs_var := edb_rhs_var v;
     edb_rhs_const := edb_rhs_const v; edb_rhs_deref := edb_rhs_deref v;
     edb_rhs_address := edb_rhs_address v; edb_call_arg_var := edb_call_arg_var v;
     edb_call_arg_const := edb_call_arg_const v; edb_call_arg_deref := edb_call_arg_deref v |}.

Definition set_used (xs : list (string * string)) (v : StatementVisitor) : StatementVisitor :=
  {| availabe_label_index := availabe_label_index v; edb_flow := edb_flow v;
     edb_label := edb_label v; edb_variable := edb_variable v;
     edb_assignment := edb_assignment v; edb_condition := edb_condition v;
     edb_return := edb_return v; edb_call := edb_call v;
     edb_function := edb_function v; edb_used := xs;
     edb_defined := edb_defined v; edb_defined_deref := edb_defined_deref v;
     edb_used_deref := edb_used_deref v; edb_rhs_var := edb_rhs_var v;
     edb_rhs_const := edb_rhs_const v; edb_rhs_deref := edb_rhs_deref v;
     edb_rhs_address := edb_rhs_address v; edb_call_arg_var := edb_call_arg_var v;
     edb_call_arg_const := edb_call_arg_const v; edb_call_arg_deref := edb_call_arg_deref v |}.

Definition set_defined (xs : list (string * string)) (v : StatementVisitor) : StatementVisitor :=
  {| availabe_label_index := availabe_label_index v; edb_flow := edb_flow v;
     edb_label := edb_label v; edb_variable := edb_variable v;
     edb_assignment := edb_assignment v; edb_condition := edb_condition v;
     edb_return := edb_return v; edb_call := edb_call v;
     edb_function := edb_function v; edb_used := edb_used v;
     edb_defined := xs; edb_defined_deref := edb_defined_deref v;
     edb_used_deref := edb_used_deref v; edb_rhs_var := edb_rhs_var v;
     edb_rhs_const := edb_rhs_const v; edb_rhs_deref := edb_rhs_deref v;
     edb_rhs_address := edb_rhs_address v; edb_call_arg_var := edb_call_arg_var v;
     edb_call_arg_const := edb_call_arg_const v; edb_call_arg_deref := edb_call_arg_deref v |}.

Definition set_defined_deref (xs : list (string * string)) (v : StatementVisitor) : StatementVisitor :=
  {| availabe_label_index := availabe_label_index v; edb_flow := edb_flow v;
     edb_label := edb_label v; edb_variable := edb_variable v;
     edb_assignment := edb_assignment v; edb_condition := edb_condition v;
     edb_return := edb_return v; edb_call := edb_call v;
     edb_function := edb_function v; edb_used := edb_used v;
     edb_defined := edb_defined v; edb_defined_deref := xs;
     edb_used_deref := edb_used_deref v; edb_rhs_var := edb_rhs_var v;
     edb_rhs_const := edb_rhs_const v; edb_rhs_deref := edb_rhs_deref v;
     edb_rhs_address := edb_rhs_address v; edb_call_arg_var := edb_call_arg_var v;
     edb_call_arg_const := edb_call_arg_const v; edb_call_arg_deref := edb_call_arg_deref v |}.

Definition set_used_deref (xs : list (string * string)) (v : StatementVisitor) : StatementVisitor :=
  {| availabe_label_index := availabe_label_index v; edb_flow := edb_flow v;
     edb_label := edb_label v; edb_variable := edb_variable v;
     edb_assignment := edb_assignment v; edb_condition := edb_condition v;
     edb_return := edb_return v; edb_call := edb_call v;
     edb_function := edb_function v; edb_used := edb_used v;
     edb_defined := edb_defined v; edb_defined_deref := edb_defined_deref v;
     edb_used_deref := xs; edb_rhs_var := edb_rhs_var v;
     edb_rhs_const := edb_rhs_const v; edb_rhs_deref := edb_rhs_deref v;
     edb_rhs_address := edb_rhs_address v; edb_call_arg_var := edb_call_arg_var v;
     edb_call_arg_const := edb_call_arg_const v; edb_call_arg_deref := edb_call_arg_deref v |}.

Definition set_rhs_var (xs : list (string * string)) (v : StatementVisitor) : StatementVisitor :=
  {| availabe_label_index := availabe_label_index v; edb_flow := edb_flow v;
     edb_label := edb_label v; edb_variable := edb_variable v;
     edb_assignment := edb_assignment v; edb_condition := edb_condition v;
     edb_return := edb_return v; edb_call := edb_call v;
     edb_function := edb_function v; edb_used := edb_used v;
     edb_defined := edb_defined v; edb_defined_deref := edb_defined_deref v;
     edb_used_deref := edb_used_deref v; edb_rhs_var := xs;
     edb_rhs_const := edb_rhs_const v; edb_rhs_deref := edb_rhs_deref v;
     edb_rhs_address := edb_rhs_address v; edb_call_arg_var := edb_call_arg_var v;
     edb_call_arg_const := edb_call_arg_const v; edb_call_arg_deref := edb_call_arg_deref v |}.

Definition set_rhs_const (xs : list (string * string)) (v : StatementVisitor) : StatementVisitor :=
  {| availabe_label_index := availabe_label_index v; edb_flow := edb_flow v;
     edb_label := edb_label v; edb_variable := edb_variable v;
     edb_assignment := edb_assignment v; edb_condition := edb_condition v;
     edb_return := edb_return v; edb_call := edb_call v;
     edb_function := edb_function v; edb_used := edb_used v;
     edb_defined := edb_defined v; edb_defined_deref := edb_defined_deref v;
     edb_used_deref := edb_used_deref v; edb_rhs_var := edb_rhs_var v;
     edb_rhs_const := xs; edb_rhs_deref := edb_rhs_deref v;
     edb_rhs_address := edb_rhs_address v; edb_call_arg_var := edb_call_arg_var v;
     edb_call_arg_const := edb_call_arg_const v; edb_call_arg_deref := edb_call_arg_deref v |}.

Definition set_rhs_deref (xs : list (string * string)) (v : StatementVisitor) : StatementVisitor :=
  {| availabe_label_index := availabe_label_index v; edb_flow := edb_flow v;
     edb_label := edb_label v; edb_variable := edb_variable v;
     edb_assignment := edb_assignment v; edb_condition := edb_condition v;
     edb_return := edb_return v; edb_call := edb_call v;
     edb_function := edb_function v; edb_used := edb_used v;
     edb_defined := edb_defined v; edb_defined_deref := edb_defined_deref v;
     edb_used_deref := edb_used_deref v; edb_rhs_var := edb_rhs_var v;
     edb_rhs_const := edb_rhs_const v; edb_rhs_deref := xs;
     edb_rhs_address := edb_rhs_address v; edb_call_arg_var := edb_call_arg_var v;
     edb_call_arg_const := edb_call_arg_const v; edb_call_arg_deref := edb_call_arg_deref v |}.

Definition set_rhs_address (xs : list (string * string)) (v : StatementVisitor) : StatementVisitor :=
  {| availabe_label_index := availabe_label_index v; edb_flow := edb_flow v;
     edb_label := edb_label v; edb_variable := edb_variable v;
     edb_assignment := edb_assignment v; edb_condition := edb_condition v;
     edb_return := edb_return v; edb_call := edb_call v;
     edb_function := edb_function v; edb_used := edb_used v;
     edb_defined := edb_defined v; edb_defined_deref := edb_defined_deref v;
     edb_used_deref := edb_used_deref v; edb_rhs_var := edb_rhs_var v;
     edb_rhs_const := edb_rhs_const v; edb_rhs_deref := edb_rhs_deref v;
     edb_rhs_address := xs; edb_call_arg_var := edb_call_arg_var v;
     edb_call_arg_const := edb_call_arg_const v; edb_call_arg_deref := edb_call_arg_deref v |}.

Definition set_call_arg_var (xs : list (string * string * string)) (v : StatementVisitor) : StatementVisitor :=
  {| availabe_label_index := availabe_label_index v; edb_flow := edb_flow v;
     edb_label := edb_label v; edb_variable := edb_variable v;
     edb_assignment := edb_assignment v; edb_condition := edb_condition v;
     edb_return := edb_return v; edb_call := edb_call v;
     edb_function := edb_function v; edb_used := edb_used v;
     edb_defined := edb_defined v; edb_defined_deref := edb_defined_deref v;
     edb_used_deref := edb_used_deref v; edb_rhs_var := edb_rhs_var v;
     edb_rhs_const := edb_rhs_const v; edb_rhs_deref := edb_rhs_deref v;
     edb_rhs_address := edb_rhs_address v; edb_call_arg_var := xs;
     edb_call_arg_const := edb_call_arg_const v; edb_call_arg_deref := edb_call_arg_deref v |}.

Definition set_call_arg_const (xs : list (string * string * string)) (v : StatementVisitor) : StatementVisitor :=
  {| availabe_label_index := availabe_label_index v; edb_flow := edb_flow v;
     edb_label := edb_label v; edb_variable := edb_variable v;
     edb_assignment := edb_assignment v; edb_condition := edb_condition v;
     edb_return := edb_return v; edb_call := edb_call v;
     edb_function := edb_function v; edb_used := edb_used v;
     edb_defined := edb_defined v; edb_defined_deref := edb_defined_deref v;
     edb_used_deref := edb_used_deref v; edb_rhs_var := edb_rhs_var v;
     edb_rhs_const := edb_rhs_const v; edb_rhs_deref := edb_rhs_deref v;
     edb_rhs_address := edb_rhs_address v; edb_call_arg_var := edb_call_arg_var v;
     edb_call_arg_const := xs; edb_call_arg_deref := edb_call_arg_deref v |}.

Definition set_call_arg_deref (xs : list (string * string * string)) (v : StatementVisitor) : StatementVisitor :=
  {| availabe_label_index := availabe_label_index v; edb_flow := edb_flow v;
     edb_label := edb_label v; edb_variable := edb_variable v;
     edb_assignment := edb_assignment v; edb_condition := edb_condition v;
     edb_return := edb_return v; edb_call := edb_call v;
     edb_function := edb_function v; edb_used := edb_used v;
     edb_defined := edb_defined v; edb_defined_deref := edb_defined_deref v;
     edb_used_deref := edb_used_deref v; edb_rhs_var := edb_rhs_var v;
     edb_rhs_const := edb_rhs_const v; edb_rhs_deref := edb_rhs_deref v;
     edb_rhs_address := edb_rhs_address v; edb_call_arg_var := edb_call_arg_var v;
     edb_call_arg_const := edb_call_arg_const v; edb_call_arg_deref := xs |}.

(** [self.edb[key].append(x)] *)

Definition append_flow (x : string * string) (v : StatementVisitor) : StatementVisitor :=
  set_flow (edb_flow v ++ [x]) v.

Definition append_label (x : string) (v : StatementVisitor) : StatementVisitor :=
  set_label (edb_label v ++ [x]) v.

Definition append_variable (x : string) (v : StatementVisitor) : StatementVisitor :=
  set_variable (edb_variable v ++ [x]) v.

Definition append_assignment (x : string) (v : StatementVisitor) : StatementVisitor :=
  set_assignment (edb_assignment v ++ [x]) v.

Definition append_condition (x : string) (v : StatementVisitor) : StatementVisitor :=
  set_condition (edb_condition v ++ [x]) v.

Definition append_return (x : string) (v : StatementVisitor) : StatementVisitor :=
  set_return (edb_return v ++ [x]) v.

Definition append_call (x : string * string) (v : StatementVisitor) : StatementVisitor :=
  set_call (edb_call v ++ [x]) v.

Definition append_function (x : string) (v : StatementVisitor) : StatementVisitor :=
  set_function (edb_function v ++ [x]) v.

Definition append_used (x : string * string) (v : StatementVisitor) : StatementVisitor :=
  set_used (edb_used v ++ [x]) v.

Definition append_defined (x : string * string) (v : StatementVisitor) : StatementVisitor :=
  set_defined (edb_defined v ++ [x]) v.

Definition append_defined_deref (x : string * string) (v : StatementVisitor) : StatementVisitor :=
  set_defined_deref (edb_defined_deref v ++ [x]) v.

Definition append_used_deref (x : string * string) (v : StatementVisitor) : StatementVisitor :=
  set_used_deref (edb_used_deref v ++ [x]) v.

Definition append_rhs_var (x : string * string) (v : StatementVisitor) : StatementVisitor :=
  set_rhs_var (edb_rhs_var v ++ [x]) v.

Definition append_rhs_const (x : string * string) (v : StatementVisitor) : StatementVisitor :=
  set_rhs_const (edb_rhs_const v ++ [x]) v.

Definition append_rhs_deref (x : string * string) (v : StatementVisitor) : StatementVisitor :=
  set_rhs_deref (edb_rhs_deref v ++ [x]) v.

Definition append_rhs_address (x : string * string) (v : StatementVisitor) : StatementVisitor :=
  set_rhs_address (edb_rhs_address v ++ [x]) v.

Definition append_call_arg_var (x : string * string * string) (v : StatementVisitor) : StatementVisitor :=
  set_call_arg_var (edb_call_arg_var v ++ [x]) v.

Definition append_call_arg_const (x : string * string * string) (v : StatementVisitor) : StatementVisitor :=
  set_call_arg_const (edb_call_arg_const v ++ [x]) v.

Definition append_call_arg_deref (x : string * string * string) (v : StatementVisitor) : StatementVisitor :=
  set_call_arg_deref (edb_call_arg_deref v ++ [x]) v.

Definition StatementVisitor_init : StatementVisitor :=
  {| availabe_label_index := 1;
     edb_flow := []; edb_label := []; edb_variable := [];
     edb_assignment := []; edb_condition := []; edb_return := [];
     edb_call := []; edb_function := []; edb_used := [];
     edb_defined := []; edb_defined_deref := []; edb_used_deref := [];
     edb_rhs_var := []; edb_rhs_const := []; edb_rhs_deref := [];
     edb_rhs_address := []; edb_call_arg_var := [];
     edb_call_arg_const := []; edb_call_arg_deref := [] |}.

(** A method of the visitor: it reads and updates the visitor, and
    returns a value or raises; an exception discards the visitor. *)
Definition M (A : Type) : Type := StatementVisitor → result (A * StatementVisitor).

#[global] Instance visitor_ret : MRet M := λ A a v, Ok (a, v).

#[global] Instance visitor_bind : MBind M := λ A B f m v,
  match m v with
  | Ok (a, v') => f a v'
  | Raise e => Raise e
  end.

Definition raise {A} (e : exn) : M A := λ _, Raise e.

Definition modify (f : StatementVisitor → StatementVisitor) : M unit :=
  λ v, Ok (tt, f v).

Definition get : M StatementVisitor := λ v, Ok (v, v).

(** [for x in xs: body(x)] *)
Fixpoint for_each {A} (xs : list A) (body : A → M unit) : M unit :=
  match xs with
  | [] => mret tt
  | x :: xs' => body x ;; for_each xs' body
  end.

(** A fragment: the entry label and the open exits. *)
Definition fragment : Type := string * list string.

Definition unsupported {A} (tag : string) : M A :=
  raise (UnsupportedLanguageConstruct (ArgStr tag)).

Module StatementVisitor.

Definition _new_label : M string :=
  v ← get;
  let id := "l" +:+ pretty (availabe_label_index v) in
  modify (set_label_index (availabe_label_index v + 1)) ;;
  modify (append_label id) ;;
  mret id.

(** The block's text goes to the rendering only. *)
Definition _add_elementary_block (n : node) : M string :=
  _new_label.

Definition _add_arc (source destination : string)
    (arc_label : option string) : M unit :=
  modify (append_flow (source, destination)).

Definition _process_expr (n : node) : M (gset string * gset string) :=
  match ExpressionVisitor.visit n ExpressionVisitor_init with
  | Raise e => raise e
  | Ok v =>
      for_each (elements (variables v) ++ elements (deref_variables v))
        (λ var, s ← get;
                if bool_decide (var ∈ edb_variable s) then mret tt
                else modify (append_variable var)) ;;
      mret (variables v, deref_variables v)
  end.

Definition _add_used (vars deref_vars : gset string) (label : string)
    : M unit :=
  for_each (elements (vars ∪ deref_vars))
    (λ v, modify (append_used (v, label))) ;;
  for_each (elements deref_vars)
    (λ v, modify (append_used_deref (v, label))).

Section Compound.
Variable visit : node → M fragment.

(** The loop of [visit_Compound] over [tail]. *)
Fixpoint Compound_tail (tail : list node) (prev_finals : list string)
    : M (list string) :=
  match tail with
  | [] => mret prev_finals
  | stmt :: tail' =>
      '(cur_init, cur_finals) ← visit stmt;
      for_each prev_finals (λ prev, _add_arc prev cur_init None) ;;
      Compound_tail tail' cur_finals
  end.
End Compound.

Definition FuncCall_shape (name : string) (arg : node) (label : string)
    : M unit :=
  (if truthy (is_deref arg)
   then modify (append_call_arg_deref (name, the (is_deref arg), label))
   else mret tt) ;;
  (if truthy (is_var arg)
   then modify (append_call_arg_var (name, the (is_var arg), label))
   else mret tt) ;;
  (if truthy (is_const arg)
   then modify (append_call_arg_const (name, the (is_const arg), label))
   else mret tt).

Definition visit_FuncCall (name : string) (args : option (list node))
    : M fragment :=
  label ← _add_elementary_block (FuncCall name args);
  (s ← get;
   if bool_decide (name ∈ edb_function s) then mret tt
   else modify (append_function name)) ;;
  modify (append_call (name, label)) ;;
  match args with
  | Some args =>
      for_each args
        (λ arg, '(arg_vars, arg_deref_vars) ← _process_expr arg;
                _add_used arg_vars arg_deref_vars label) ;;
      match args with
      | [arg] => FuncCall_shape name arg label
      | _ => mret tt
      end
  | None => mret tt
  end ;;
  mret (label, [label]).

Definition Assignment_shape (rvalue : node) (label : string) : M unit :=
  (if truthy (is_deref rvalue)
   then modify (append_rhs_deref (the (is_deref rvalue), label))
   else mret tt) ;;
  (if truthy (is_address rvalue)
   then modify (append_rhs_address (the (is_address rvalue), label))
   else mret tt) ;;
  (if truthy (is_var rvalue)
   then modify (append_rhs_var (the (is_var rvalue), label))
   else mret tt) ;;
  (if truthy (is_const rvalue)
   then modify (append_rhs_const (the (is_const rvalue), label))
   else mret tt).

Definition visit_Assignment (op : string) (lvalue rvalue : node)
    : M fragment :=
  let n := Assignment op lvalue rvalue in
  label ← _add_elementary_block n;
  '(rvalue_vars, rvalue_deref_vars) ← _process_expr rvalue;
  _add_used rvalue_vars rvalue_deref_vars label ;;
  Assignment_shape rvalue label ;;
  '(lvalue_vars, lvalue_deref_vars) ← _process_expr lvalue;
  (if bool_decide (size lvalue_vars = 1 ∧ size lvalue_deref_vars = 0) then
     modify (append_defined (the (head (elements lvalue_vars)), label))
   else if bool_decide (size lvalue_vars = 0 ∧ size lvalue_deref_vars = 1) then
     modify (append_defined_deref
               (the (head (elements lvalue_deref_vars)), label))
   else raise (UnsupportedLanguageConstruct (ArgNode n))) ;;
  modify (append_assignment label) ;;
  mret (label, [label]).

Definition visit_Return (expr : node) : M fragment :=
  label ← _add_elementary_block (Return expr);
  '(expr_vars, expr_deref_vars) ← _process_expr expr;
  _add_used expr_vars expr_deref_vars label ;;
  modify (append_return label) ;;
  mret (label, []).

(** The condition block shared by [visit_If] and [visit_While]. *)
Definition condition_block (cond : node) : M string :=
  cond_label ← _add_elementary_block cond;
  modify (append_condition cond_label) ;;
  '(cond_vars, cond_deref_vars) ← _process_expr cond;
  _add_used cond_vars cond_deref_vars cond_label ;;
  mret cond_label.

Fixpoint visit (n : node) : M fragment :=
  match n with
  | FileAST ext =>
      match ext with
      | [] => unsupported "empty file"
      | _ :: _ :: _ => unsupported "more than one top-level element"
      | [ext0] =>
          match ext0 with
          | FuncDef _ _ => visit ext0
          | _ => raise (NameError "node")
          end
      end
  | FuncDef decl_name body =>
      if String.eqb decl_name "main" then visit body
      else raise AssertionError
  | Compound block_items =>
      match block_items with
      | None => raise TypeError
      | Some [] => raise ValueError
      | Some (head :: tail) =>
          '(head_init, head_finals) ← visit head;
          prev_finals ← Compound_tail visit tail head_finals;
          mret (head_init, prev_finals)
      end
  | If cond iftrue iffalse =>
      if is_None cond then unsupported "empty condition" else
      cond_label ← condition_block cond;
      if is_None iftrue && is_None iffalse
      then unsupported "if without branches" else
      if_finals ←
        (if negb (is_None iftrue) then
           '(iftrue_init, iftrue_finals) ← visit iftrue;
           _add_arc cond_label iftrue_init (Some "true") ;;
           mret ([] ++ iftrue_finals)
         else mret ([] ++ [cond_label]));
      if_finals ←
        (if negb (is_None iffalse) then
           '(iffalse_init, iffalse_finals) ← visit iffalse;
           _add_arc cond_label iffalse_init (Some "false") ;;
           mret (if_finals ++ iffalse_finals)
         else mret (if_finals ++ [cond_label]));
      mret (cond_label, if_finals)
  | FuncCall name args => visit_FuncCall name args
  | While cond stmt =>
      if is_None cond then unsupported "empty condition" else
      cond_label ← condition_block cond;
      (if negb (is_None stmt) then
         '(body_init, body_finals) ← visit stmt;
         _add_arc cond_label body_init (Some "true") ;;
         for_each body_finals (λ final, _add_arc final cond_label None)
       else mret tt) ;;
      mret (cond_label, [cond_label])
  | Assignment op lvalue rvalue => visit_Assignment op lvalue rvalue
  | Return expr => visit_Return expr
  | _ => unsupported (class_name n)
  end.

End StatementVisitor.

(** ** generate_cfg *)

Record EDB : Type := mkEDB {
  edb : StatementVisitor;
  edb_init : list string;
  edb_final : list string
}.

Definition generate_cfg (ast : node) : result EDB :=
  match StatementVisitor.visit ast StatementVisitor_init with
  | Raise e => Raise e
  | Ok ((init, finals), v) =>
      Ok {| edb := v;
            edb_init := [init];
            edb_final :=
              elements (list_to_set (finals ++ edb_return v) : gset string) |}
  end.

(** * Properties *)

(** ** The visitor monad *)

Lemma bind_Ok {A B} (m : M A) (f : A → M B) v b v' :
  (m ≫= f) v = Ok (b, v') ↔ ∃ a v1, m v = Ok (a, v1) ∧ f a v1 = Ok (b, v').
Proof.
  unfold mbind, visitor_bind. split.
  - destruct (m v) as [[a v1]|e]; [eauto | discriminate].
  - intros (a & v1 & -> & H). exact H.
Qed.

Lemma bind_eq {A B} (m : M A) (f : A → M B) v a v1 :
  m v = Ok (a, v1) → (m ≫= f) v = f a v1.
Proof. unfold mbind, visitor_bind. by intros ->. Qed.

Lemma bind_Raise {A B} (m : M A) (f : A → M B) v e :
  m v = Raise e → (m ≫= f) v = Raise e.
Proof. unfold mbind, visitor_bind. by intros ->. Qed.

Lemma for_each_pure {A} (f : A → StatementVisitor → StatementVisitor)
    (body : A → M unit) (xs : list A) :
  (∀ x v, body x v = Ok (tt, f x v)) →
  ∀ v, for_each xs body v = Ok (tt, foldl (λ s x, f x s) v xs).
Proof.
  intros Hbody. induction xs as [|x xs IH]; intros v; simpl; [done|].
  by rewrite (bind_eq _ _ _ _ _ (Hbody x v)).
Qed.

(** ** What the helper methods do to the visitor *)

(** The label made from a counter value. *)
Definition label_of (i : nat) : string := "l" +:+ pretty i.

Definition add_variables (xs : list string) (v : StatementVisitor)
    : StatementVisitor :=
  foldl (λ s var, if bool_decide (var ∈ edb_variable s) then s
                  else append_variable var s) v xs.

Definition add_used (vars deref_vars : gset string) (label : string)
    (v : StatementVisitor) : StatementVisitor :=
  set_used_deref
    (edb_used_deref v ++ ((λ x, (x, label)) <$> elements deref_vars))
    (set_used
       (edb_used v ++ ((λ x, (x, label)) <$> elements (vars ∪ deref_vars))) v).

Definition add_arcs (sources : list string) (destination : string)
    (v : StatementVisitor) : StatementVisitor :=
  set_flow (edb_flow v ++ ((λ s, (s, destination)) <$> sources)) v.

Arguments add_variables : simpl never.
Arguments add_used : simpl never.
Arguments add_arcs : simpl never.

Lemma _new_label_eq v :
  StatementVisitor._new_label v =
  Ok (label_of (availabe_label_index v),
      append_label (label_of (availabe_label_index v))
        (set_label_index (availabe_label_index v + 1) v)).
Proof. reflexivity. Qed.

(** The [variable] relation after the names [xs] were added. *)
Definition variable_after (xs : list string) (v : StatementVisitor)
    : list string :=
  edb_variable (add_variables xs v).
Arguments variable_after : simpl never.

Lemma add_variables_eq xs v :
  add_variables xs v = set_variable (variable_after xs v) v.
Proof.
  unfold variable_after. revert v. induction xs as [|x xs IH]; intros v.
  - by destruct v.
  - unfold add_variables in *. simpl. case_bool_decide; [apply IH|].
    rewrite IH. by destruct v.
Qed.

Lemma foldl_append_used (g : string → string * string) xs v :
  foldl (λ s x, append_used (g x) s) v xs = set_used (edb_used v ++ (g <$> xs)) v.
Proof.
  revert v. induction xs as [|x xs IH]; intros v; simpl.
  - rewrite app_nil_r. by destruct v.
  - rewrite IH. destruct v; unfold append_used, set_used; simpl.
    by rewrite <- app_assoc.
Qed.

Lemma foldl_append_used_deref (g : string → string * string) xs v :
  foldl (λ s x, append_used_deref (g x) s) v xs =
  set_used_deref (edb_used_deref v ++ (g <$> xs)) v.
Proof.
  revert v. induction xs as [|x xs IH]; intros v; simpl.
  - rewrite app_nil_r. by destruct v.
  - rewrite IH. destruct v; unfold append_used_deref, set_used_deref; simpl.
    by rewrite <- app_assoc.
Qed.

Lemma foldl_append_flow (g : string → string * string) xs v :
  foldl (λ s x, append_flow (g x) s) v xs = set_flow (edb_flow v ++ (g <$> xs)) v.
Proof.
  revert v. induction xs as [|x xs IH]; intros v; simpl.
  - rewrite app_nil_r. by destruct v.
  - rewrite IH. destruct v; unfold append_flow, set_flow; simpl.
    by rewrite <- app_assoc.
Qed.

Lemma _add_used_eq vars deref_vars label v :
  StatementVisitor._add_used vars deref_vars label v =
  Ok (tt, add_used vars deref_vars label v).
Proof.
  unfold StatementVisitor._add_used, add_used.
  erewrite bind_eq; last by apply (for_each_pure (λ x, append_used (x, label))).
  rewrite (for_each_pure (λ x, append_used_deref (x, label))) by done.
  by rewrite foldl_append_used, foldl_append_used_deref.
Qed.

Lemma for_each_add_arc sources destination v :
  for_each sources (λ s, StatementVisitor._add_arc s destination None) v =
  Ok (tt, add_arcs sources destination v).
Proof.
  rewrite (for_each_pure (λ s, append_flow (s, destination))) by done.
  by rewrite foldl_append_flow.
Qed.

Definition scan (n : node) : result ExpressionVisitor :=
  ExpressionVisitor.visit n ExpressionVisitor_init.

Lemma _process_expr_eq n v :
  StatementVisitor._process_expr n v =
  match scan n with
  | Ok e => Ok ((variables e, deref_variables e),
                add_variables (elements (variables e) ++
                               elements (deref_variables e)) v)
  | Raise e => Raise e
  end.
Proof.
  unfold StatementVisitor._process_expr, scan.
  destruct (ExpressionVisitor.visit n _) as [e|e]; [|done].
  erewrite bind_eq; [done|].
  apply (for_each_pure (λ var s, if bool_decide (var ∈ edb_variable s) then s
                                else append_variable var s)).
  intros x s. unfold mbind, visitor_bind, get. by case_bool_decide.
Qed.

(** ** Statements that make one block *)

Ltac unfold_visitor :=
  unfold mbind, visitor_bind, mret, visitor_ret, modify, raise, unsupported, get.

Lemma visit_Return_eq expr v :
  StatementVisitor.visit_Return expr v =
  match scan expr with
  | Ok e =>
      let label := label_of (availabe_label_index v) in
      Ok ((label, []),
          append_return label
            (add_used (variables e) (deref_variables e) label
               (add_variables (elements (variables e) ++
                               elements (deref_variables e))
                  (append_label label
                     (set_label_index (availabe_label_index v + 1) v)))))
  | Raise e => Raise e
  end.
Proof.
  unfold StatementVisitor.visit_Return, StatementVisitor._add_elementary_block.
  unfold_visitor. rewrite _new_label_eq, _process_expr_eq.
  destruct (scan expr) as [e|e]; [|done]. by rewrite _add_used_eq.
Qed.

(** C10. A [return] without an expression is rejected with
    [UnsupportedLanguageConstruct], whatever the visitor holds; and a
    [return] is accepted exactly when the read-scan accepts its
    expression. *)
Theorem visit_Return_bare_unsupported :
  (∀ v, StatementVisitor.visit (Return PyNone) v =
        Raise (UnsupportedLanguageConstruct (ArgStr "NoneType"))) ∧
  (∀ expr v, is_Ok (StatementVisitor.visit (Return expr) v) =
             is_Ok (scan expr)).
Proof.
  split.
  - intros v. simpl. by rewrite visit_Return_eq.
  - intros expr v. simpl. rewrite visit_Return_eq. by destruct (scan expr).
Qed.

(** ** The program root *)

(** The top level the specification asks for: one function definition
    named [main]. *)
Definition root_ok (ext : list node) : bool :=
  match ext with
  | [FuncDef decl_name _] => String.eqb decl_name "main"
  | _ => false
  end.

Definition prog_misnamed : node :=
  FileAST [FuncDef "f" (Compound (Some [Return (Constant "0")]))].

(** C2, as stated, fails: a single function definition with another
    name is stopped by the [assert], an [AssertionError]. *)
Lemma root_misnamed_not_unsupported :
  root_ok [FuncDef "f" (Compound (Some [Return (Constant "0")]))] = false ∧
  generate_cfg prog_misnamed = Raise AssertionError ∧
  is_unsupported (generate_cfg prog_misnamed) = false.
Proof. by vm_compute. Qed.

(** C2, amended. An empty file and a file with more than one top-level
    element fail with [UnsupportedLanguageConstruct]; a single function
    definition whose name is not [main] fails the [assert]. *)
Theorem root_rejected :
  generate_cfg (FileAST []) =
    Raise (UnsupportedLanguageConstruct (ArgStr "empty file")) ∧
  (∀ a b rest,
     generate_cfg (FileAST (a :: b :: rest)) =
       Raise (UnsupportedLanguageConstruct
                (ArgStr "more than one top-level element"))) ∧
  (∀ decl_name body,
     decl_name ≠ "main" →
     generate_cfg (FileAST [FuncDef decl_name body]) = Raise AssertionError).
Proof.
  split; [done|]. split; [done|].
  intros decl_name body Hne. unfold generate_cfg. simpl.
  destruct (String.eqb_spec decl_name "main") as [->|_]; done.
Qed.

Lemma root_rejected_witness :
  generate_cfg (FileAST [FuncDef "f" (Return (Constant "0"))]) =
    Raise AssertionError.
Proof. apply (proj2 (proj2 root_rejected)). discriminate. Defined.

(** ** Shape tags *)

Definition when (b : bool) (f : StatementVisitor → StatementVisitor)
    (v : StatementVisitor) : StatementVisitor :=
  if b then f v else v.

Definition rhs_shape (rvalue : node) (label : string) (v : StatementVisitor)
    : StatementVisitor :=
  when (truthy (is_const rvalue))
    (append_rhs_const (the (is_const rvalue), label))
    (when (truthy (is_var rvalue))
       (append_rhs_var (the (is_var rvalue), label))
       (when (truthy (is_address rvalue))
          (append_rhs_address (the (is_address rvalue), label))
          (when (truthy (is_deref rvalue))
             (append_rhs_deref (the (is_deref rvalue), label)) v))).

Definition call_arg_shape (name : string) (arg : node) (label : string)
    (v : StatementVisitor) : StatementVisitor :=
  when (truthy (is_const arg))
    (append_call_arg_const (name, the (is_const arg), label))
    (when (truthy (is_var arg))
       (append_call_arg_var (name, the (is_var arg), label))
       (when (truthy (is_deref arg))
          (append_call_arg_deref (name, the (is_deref arg), label)) v)).

Arguments rhs_shape : simpl never.
Arguments call_arg_shape : simpl never.

Lemma Assignment_shape_eq rvalue label v :
  StatementVisitor.Assignment_shape rvalue label v =
  Ok (tt, rhs_shape rvalue label v).
Proof.
  unfold StatementVisitor.Assignment_shape, rhs_shape, when. unfold_visitor.
  by destruct (truthy (is_deref rvalue)), (truthy (is_address rvalue)),
    (truthy (is_var rvalue)), (truthy (is_const rvalue)).
Qed.

Lemma FuncCall_shape_eq name arg label v :
  StatementVisitor.FuncCall_shape name arg label v =
  Ok (tt, call_arg_shape name arg label v).
Proof.
  unfold StatementVisitor.FuncCall_shape, call_arg_shape, when. unfold_visitor.
  by destruct (truthy (is_deref arg)), (truthy (is_var arg)),
    (truthy (is_const arg)).
Qed.

(** At most one of the four tests is true of a node. *)
Lemma shape_exclusive n :
  ((if truthy (is_deref n) then 1 else 0) +
   (if truthy (is_address n) then 1 else 0) +
   (if truthy (is_var n) then 1 else 0) +
   (if truthy (is_const n) then 1 else 0) ≤ 1)%nat.
Proof.
  destruct n as [| | |op e| | | | | | | | | |]; simpl; try lia;
    try (destruct (negb _); lia).
  destruct e; simpl; try lia.
  destruct (String.eqb_spec op "*") as [->|]; simpl.
  - destruct (negb _); lia.
  - destruct (String.eqb op "&"); simpl; [destruct (negb _)|]; lia.
Qed.

(** ** Assignment *)

Definition defined_state (n : node) (label : string)
    (lvalue_vars lvalue_deref_vars : gset string) (v : StatementVisitor)
    : result (fragment * StatementVisitor) :=
  if bool_decide (size lvalue_vars = 1 ∧ size lvalue_deref_vars = 0) then
    Ok ((label, [label]),
        append_assignment label
          (append_defined (the (head (elements lvalue_vars)), label) v))
  else if bool_decide (size lvalue_vars = 0 ∧ size lvalue_deref_vars = 1) then
    Ok ((label, [label]),
        append_assignment label
          (append_defined_deref
             (the (head (elements lvalue_deref_vars)), label) v))
  else Raise (UnsupportedLanguageConstruct (ArgNode n)).

Lemma visit_Assignment_eq op lvalue rvalue v :
  StatementVisitor.visit_Assignment op lvalue rvalue v =
  match scan rvalue with
  | Raise e => Raise e
  | Ok r =>
      let label := label_of (availabe_label_index v) in
      let v1 :=
        rhs_shape rvalue label
          (add_used (variables r) (deref_variables r) label
             (add_variables (elements (variables r) ++
                             elements (deref_variables r))
                (append_label label
                   (set_label_index (availabe_label_index v + 1) v)))) in
      match scan lvalue with
      | Raise e => Raise e
      | Ok l =>
          defined_state (Assignment op lvalue rvalue) label
            (variables l) (deref_variables l)
            (add_variables (elements (variables l) ++
                            elements (deref_variables l)) v1)
      end
  end.
Proof.
  unfold StatementVisitor.visit_Assignment,
    StatementVisitor._add_elementary_block, defined_state.
  unfold_visitor. rewrite _new_label_eq, _process_expr_eq.
  destruct (scan rvalue) as [r|e]; [|done]. cbv zeta.
  rewrite _add_used_eq, Assignment_shape_eq, _process_expr_eq.
  destruct (scan lvalue) as [l|e]; [|done].
  by repeat case_bool_decide.
Qed.

(** The read-scan raises nothing but [UnsupportedLanguageConstruct]. *)
Lemma ExpressionVisitor_visit_Raise n self e :
  ExpressionVisitor.visit n self = Raise e →
  ∃ k, e = UnsupportedLanguageConstruct (ArgStr k).
Proof.
  revert self. induction n; intros self; simpl; try (intros [= <-]; eauto); try done.
  - case_match; [done|]. eauto.
  - destruct (ExpressionVisitor.visit n1 self) eqn:E1; [eauto|].
    intros [= <-]. eauto.
Qed.

(** Normal form of a visitor built by the helper methods: setters
    applied to the visitor it was built from. *)
Ltac state_norm :=
  rewrite ?add_variables_eq;
  unfold add_used, add_arcs, rhs_shape, call_arg_shape, when;
  repeat case_match; simpl.

Definition prog_assign_subscript : node :=
  Assignment "=" (ID "x") (Other "ArrayRef").

(** C4, as stated, fails: in [x = a[0]] the left-hand side is the one
    direct-read variable [x], yet no [defined] fact is recorded, the
    right-hand side being scanned first and rejected. *)
Lemma Assignment_lvalue_needs_rvalue :
  (∃ l, scan (ID "x") = Ok l ∧ variables l = {["x"]} ∧ deref_variables l = ∅) ∧
  StatementVisitor.visit prog_assign_subscript StatementVisitor_init =
    Raise (UnsupportedLanguageConstruct (ArgStr "ArrayRef")) ∧
  generate_cfg (FileAST [FuncDef "main" (Compound (Some [prog_assign_subscript]))]) =
    Raise (UnsupportedLanguageConstruct (ArgStr "ArrayRef")).
Proof.
  split; [|by vm_compute].
  eexists. split; [reflexivity|]. by vm_compute.
Qed.

(** C4, amended. For an assignment whose right-hand side the read-scan
    accepts: a left-hand side that scans to one direct read [x] and no
    dereferenced read records [defined (x, label)]; one that scans to
    one dereferenced read [x] and no direct read records
    [defined_deref (x, label)]; every other left-hand side, one the
    scan rejects included, fails with [UnsupportedLanguageConstruct]. *)
Theorem Assignment_lvalue op lvalue rvalue v r :
  scan rvalue = Ok r →
  let label := label_of (availabe_label_index v) in
  let res := StatementVisitor.visit (Assignment op lvalue rvalue) v in
  (∀ l x, scan lvalue = Ok l →
     variables l = {[x]} → deref_variables l = ∅ →
     ∃ v', res = Ok ((label, [label]), v') ∧
           edb_defined v' = edb_defined v ++ [(x, label)] ∧
           edb_defined_deref v' = edb_defined_deref v) ∧
  (∀ l x, scan lvalue = Ok l →
     variables l = ∅ → deref_variables l = {[x]} →
     ∃ v', res = Ok ((label, [label]), v') ∧
           edb_defined_deref v' = edb_defined_deref v ++ [(x, label)] ∧
           edb_defined v' = edb_defined v) ∧
  (∀ l, scan lvalue = Ok l →
     ¬ (size (variables l) = 1 ∧ size (deref_variables l) = 0) →
     ¬ (size (variables l) = 0 ∧ size (deref_variables l) = 1) →
     res = Raise (UnsupportedLanguageConstruct
                    (ArgNode (Assignment op lvalue rvalue)))) ∧
  (∀ e, scan lvalue = Raise e → res = Raise e ∧ is_unsupported res = true).
Proof.
  intros Hr label res. subst res. simpl.
  rewrite visit_Assignment_eq, Hr. cbv zeta. fold label.
  repeat split.
  - intros l x -> Hv Hd. unfold defined_state.
    rewrite Hv, Hd, size_singleton, size_empty, elements_singleton.
    rewrite bool_decide_true by done. eexists. split; [reflexivity|].
    by state_norm.
  - intros l x -> Hv Hd. unfold defined_state.
    rewrite Hv, Hd, size_singleton, size_empty, elements_singleton.
    rewrite bool_decide_false by (intros [? _]; done).
    rewrite bool_decide_true by done. eexists. split; [reflexivity|].
    by state_norm.
  - intros l -> H1 H2. unfold defined_state.
    by rewrite !bool_decide_false.
  - by rewrite H.
  - rewrite H. apply ExpressionVisitor_visit_Raise in H as [k ->]. done.
Qed.

Lemma Assignment_lvalue_witness :
  ∃ v', StatementVisitor.visit (Assignment "=" (ID "x") (Constant "1"))
          StatementVisitor_init = Ok (("l1", ["l1"]), v') ∧
        edb_defined v' = [("x", "l1")] ∧ edb_defined_deref v' = [].
Proof.
  refine (proj1 (Assignment_lvalue "=" (ID "x") (Constant "1")
                   StatementVisitor_init _ eq_refl) _ "x" eq_refl _ _).
  - by vm_compute.
  - by vm_compute.
Defined.

(** ** Calls *)

(** The loop of [visit_FuncCall] over the arguments. *)
Fixpoint args_state (args : list node) (label : string) (v : StatementVisitor)
    : result StatementVisitor :=
  match args with
  | [] => Ok v
  | arg :: rest =>
      match scan arg with
      | Raise e => Raise e
      | Ok r =>
          args_state rest label
            (add_used (variables r) (deref_variables r) label
               (add_variables (elements (variables r) ++
                               elements (deref_variables r)) v))
      end
  end.

Definition add_function (name : string) (v : StatementVisitor)
    : StatementVisitor :=
  if bool_decide (name ∈ edb_function v) then v else append_function name v.

Definition sole (args : option (list node)) : option node :=
  match args with
  | Some [arg] => Some arg
  | _ => None
  end.

Lemma for_each_args_eq args label v :
  for_each args
    (λ arg, '(arg_vars, arg_deref_vars) ← StatementVisitor._process_expr arg;
            StatementVisitor._add_used arg_vars arg_deref_vars label) v =
  match args_state args label v with
  | Ok v' => Ok (tt, v')
  | Raise e => Raise e
  end.
Proof.
  revert v. induction args as [|arg rest IH]; intros v; simpl; [done|].
  unfold_visitor. rewrite _process_expr_eq.
  destruct (scan arg) as [r|e]; [|done].
  rewrite _add_used_eq. apply IH.
Qed.

Lemma visit_FuncCall_eq name args v :
  StatementVisitor.visit_FuncCall name args v =
  let label := label_of (availabe_label_index v) in
  let v0 :=
    append_call (name, label)
      (add_function name
         (append_label label
            (set_label_index (availabe_label_index v + 1) v))) in
  match args with
  | None => Ok ((label, [label]), v0)
  | Some args' =>
      match args_state args' label v0 with
      | Raise e => Raise e
      | Ok v1 =>
          Ok ((label, [label]),
              match sole args with
              | Some arg => call_arg_shape name arg label v1
              | None => v1
              end)
      end
  end.
Proof.
  unfold StatementVisitor.visit_FuncCall,
    StatementVisitor._add_elementary_block, add_function.
  unfold_visitor. rewrite _new_label_eq. cbv zeta.
  destruct args as [args'|]; simpl.
  - pose proof for_each_args_eq as Hargs.
    unfold mbind, visitor_bind in Hargs.
    case_bool_decide; rewrite Hargs;
      destruct (args_state args' _ _) as [v1|e]; try done;
      destruct args' as [|arg [|arg' rest]]; try done;
      by rewrite FuncCall_shape_eq.
  - by case_bool_decide.
Qed.

Lemma args_state_eq args label v v' :
  args_state args label v = Ok v' →
  v' = set_used_deref (edb_used_deref v')
         (set_used (edb_used v') (set_variable (edb_variable v') v)).
Proof.
  revert v. induction args as [|arg rest IH]; intros v; simpl.
  - intros [= <-]. by destruct v.
  - destruct (scan arg) as [r|e]; [|done]. intros H.
    apply IH in H. rewrite H at 1. by state_norm.
Qed.






(** ** The read-scan and the address-of tag *)

Lemma visit_Assignment_rhs_address op lvalue rvalue v frag v' :
  StatementVisitor.visit_Assignment op lvalue rvalue v = Ok (frag, v') →
  edb_rhs_address v' =
    edb_rhs_address v ++
    (if truthy (is_address rvalue)
     then [(the (is_address rvalue), label_of (availabe_label_index v))]
     else []).
Proof.
  rewrite visit_Assignment_eq.
  destruct (scan rvalue) as [r|e]; [|done]. cbv zeta.
  destruct (scan lvalue) as [l|e]; [|done]. unfold defined_state.
  repeat case_bool_decide; try done; intros [= <- <-]; state_norm;
    by rewrite ?app_nil_r.
Qed.

Lemma _process_expr_rhs_address n v r v' :
  StatementVisitor._process_expr n v = Ok (r, v') →
  edb_rhs_address v' = edb_rhs_address v.
Proof.
  rewrite _process_expr_eq.
  destruct (scan n) as [e|e]; [|done]. intros [= <- <-]. by state_norm.
Qed.

Lemma visit_Return_rhs_address expr v frag v' :
  StatementVisitor.visit_Return expr v = Ok (frag, v') →
  edb_rhs_address v' = edb_rhs_address v.
Proof.
  rewrite visit_Return_eq.
  destruct (scan expr) as [e|e]; [|done]. intros [= <- <-]. by state_norm.
Qed.

Lemma visit_FuncCall_rhs_address name args v frag v' :
  StatementVisitor.visit_FuncCall name args v = Ok (frag, v') →
  edb_rhs_address v' = edb_rhs_address v.
Proof.
  rewrite visit_FuncCall_eq. cbv zeta.
  destruct args as [args'|].
  - destruct (args_state args' _ _) as [v1|e] eqn:E; [|done].
    intros [= <- <-]. apply args_state_eq in E.
    assert (edb_rhs_address v1 = edb_rhs_address v) as <-.
    { rewrite E. unfold add_function. by case_bool_decide. }
    unfold sole. by state_norm.
  - intros [= <- <-]. unfold add_function. by case_bool_decide.
Qed.

(** ** Labels across a whole build *)

Lemma label_of_inj i j : label_of i = label_of j → i = j.
Proof.
  unfold label_of. intros H. apply (inj (String.app "l")) in H.
  by apply (inj pretty) in H.
Qed.

(** The labels allocated while the counter went from [a] to [b]. *)
Definition fresh (a b : nat) (l : string) : Prop :=
  ∃ i, (a ≤ i < b)%nat ∧ l = label_of i.

Lemma fresh_mono a b a' b' l :
  (a' ≤ a)%nat → (b ≤ b')%nat → fresh a b l → fresh a' b' l.
Proof. intros ?? (i & ? & ->). exists i. split; [lia|done]. Qed.

Lemma fresh_disjoint a b c d l :
  (b ≤ c)%nat → fresh a b l → fresh c d l → False.
Proof.
  intros Hbc (i & Hi & ->) (j & Hj & Heq). apply label_of_inj in Heq. lia.
Qed.

Lemma fresh_next a : fresh a (a + 1) (label_of a).
Proof. exists a. split; [lia|done]. Qed.

(** The label columns of the relations. *)
Definition sources (v : StatementVisitor) : list string := (edb_flow v).*1.

Definition rhs_labels (v : StatementVisitor) : list string :=
  (edb_rhs_var v).*2 ++ (edb_rhs_const v).*2 ++
  (edb_rhs_deref v).*2 ++ (edb_rhs_address v).*2.

Definition call_arg_labels (v : StatementVisitor) : list string :=
  (edb_call_arg_var v).*2 ++ (edb_call_arg_const v).*2 ++
  (edb_call_arg_deref v).*2.

(** Every label that a relation other than [label] holds. *)
Definition mentioned (v : StatementVisitor) : list string :=
  (edb_flow v).*1 ++ (edb_flow v).*2 ++
  edb_assignment v ++ edb_condition v ++ edb_return v ++
  (edb_call v).*2 ++
  (edb_used v).*2 ++ (edb_defined v).*2 ++
  (edb_defined_deref v).*2 ++ (edb_used_deref v).*2 ++
  rhs_labels v ++ call_arg_labels v.

(** A step that allocates no label and adds no arc; what it mentions
    anew is [label]. *)
Record quiet (label : string) (v v' : StatementVisitor) : Prop := mkQuiet {
  quiet_index : availabe_label_index v' = availabe_label_index v;
  quiet_label : edb_label v' = edb_label v;
  quiet_flow : edb_flow v' = edb_flow v;
  quiet_mentioned : ∀ l, l ∈ mentioned v' → l ∈ mentioned v ∨ l = label;
  quiet_return : ∀ l, l ∈ edb_return v' → l ∈ edb_return v ∨ l = label;
  quiet_condition : ∀ l, l ∈ edb_condition v → l ∈ edb_condition v';
  quiet_function : ∀ f, f ∈ edb_function v → f ∈ edb_function v';
  quiet_call :
    ∀ c, c ∈ edb_call v' → c ∈ edb_call v ∨ (c.1 ∈ edb_function v' ∧ c.2 = label)
}.

Lemma quiet_refl label v : quiet label v v.
Proof. split; auto. Qed.

Lemma quiet_trans label v1 v2 v3 :
  quiet label v1 v2 → quiet label v2 v3 → quiet label v1 v3.
Proof.
  intros H1 H2. split.
  - by rewrite (quiet_index _ _ _ H2), (quiet_index _ _ _ H1).
  - by rewrite (quiet_label _ _ _ H2), (quiet_label _ _ _ H1).
  - by rewrite (quiet_flow _ _ _ H2), (quiet_flow _ _ _ H1).
  - intros l Hl. apply (quiet_mentioned _ _ _ H2) in Hl as [Hl| ->]; [|by right].
    by apply (quiet_mentioned _ _ _ H1).
  - intros l Hl. apply (quiet_return _ _ _ H2) in Hl as [Hl| ->]; [|by right].
    by apply (quiet_return _ _ _ H1).
  - intros l Hl. apply (quiet_condition _ _ _ H2). by apply (quiet_condition _ _ _ H1).
  - intros f Hf. apply (quiet_function _ _ _ H2). by apply (quiet_function _ _ _ H1).
  - intros c Hc. apply (quiet_call _ _ _ H2) in Hc as [Hc|Hc]; [|by right].
    apply (quiet_call _ _ _ H1) in Hc as [Hc|[Hc ?]]; [by left|right].
    split; [|done]. by apply (quiet_function _ _ _ H2).
Qed.

Ltac quiet_field :=
  intros ?; rewrite ?fmap_app; simpl;
  rewrite ?elem_of_app, ?list_elem_of_singleton;
  first [tauto | set_solver].

Ltac quiet_solve :=
  split; simpl; try done;
  [ unfold mentioned, rhs_labels, call_arg_labels; simpl; quiet_field
  | quiet_field.. ].

Lemma quiet_append_assignment label v : quiet label v (append_assignment label v).
Proof. quiet_solve. Qed.
Lemma quiet_append_return label v : quiet label v (append_return label v).
Proof. quiet_solve. Qed.
Lemma quiet_append_condition label v : quiet label v (append_condition label v).
Proof. quiet_solve. Qed.
Lemma quiet_append_defined x label v : quiet label v (append_defined (x, label) v).
Proof. quiet_solve. Qed.
Lemma quiet_append_defined_deref x label v :
  quiet label v (append_defined_deref (x, label) v).
Proof. quiet_solve. Qed.

Lemma quiet_add_variables label xs v : quiet label v (add_variables xs v).
Proof. rewrite add_variables_eq. quiet_solve. Qed.

Lemma quiet_add_used label vars deref_vars v :
  quiet label v (add_used vars deref_vars label v).
Proof. unfold add_used. quiet_solve. Qed.

Lemma quiet_add_function label name v : quiet label v (add_function name v).
Proof. unfold add_function. case_bool_decide; quiet_solve. Qed.

Lemma quiet_append_call label name v :
  quiet label (add_function name v) (append_call (name, label) (add_function name v)).
Proof.
  assert (name ∈ edb_function (add_function name v)) as Hin.
  { unfold add_function. case_bool_decide; [done|]. simpl. set_solver. }
  revert Hin. generalize (add_function name v). intros v1 Hin.
  quiet_solve.
Qed.

Lemma quiet_when label b f v :
  quiet label v (f v) → quiet label v (when b f v).
Proof. destruct b; [done|]. intros _. apply quiet_refl. Qed.

Lemma quiet_rhs_shape rvalue label v : quiet label v (rhs_shape rvalue label v).
Proof.
  unfold rhs_shape.
  do 3 (eapply quiet_trans; [|apply quiet_when; quiet_solve]).
  apply quiet_when; quiet_solve.
Qed.

Lemma quiet_call_arg_shape name arg label v :
  quiet label v (call_arg_shape name arg label v).
Proof.
  unfold call_arg_shape.
  do 2 (eapply quiet_trans; [|apply quiet_when; quiet_solve]).
  apply quiet_when; quiet_solve.
Qed.

Lemma quiet_args_state args label v v' :
  args_state args label v = Ok v' → quiet label v v'.
Proof.
  revert v. induction args as [|arg rest IH]; intros v; simpl.
  - intros [= <-]. apply quiet_refl.
  - destruct (scan arg) as [r|e]; [|done]. intros H. apply IH in H.
    eapply quiet_trans; [|exact H].
    eapply quiet_trans; [apply quiet_add_variables|apply quiet_add_used].
Qed.

(** How many entries of a label column are [l]. *)
Definition tagged (l : string) (xs : list string) : nat :=
  length (filter (λ x, x = l) xs).

Lemma tagged_app l xs ys : tagged l (xs ++ ys) = (tagged l xs + tagged l ys)%nat.
Proof. unfold tagged. by rewrite filter_app, length_app. Qed.

Lemma tagged_absent l xs : l ∉ xs → tagged l xs = 0%nat.
Proof.
  unfold tagged. induction xs as [|x xs IH]; [done|].
  rewrite not_elem_of_cons. intros [Hne Hnin].
  rewrite filter_cons_False by done. by apply IH.
Qed.

Lemma tagged_present l xs : l ∈ xs → (1 ≤ tagged l xs)%nat.
Proof.
  unfold tagged. induction xs as [|x xs IH]; [by rewrite elem_of_nil|].
  rewrite elem_of_cons. intros [->|Hin].
  - rewrite filter_cons_True by done. simpl. lia.
  - destruct (decide (x = l)) as [->|Hne].
    + rewrite filter_cons_True by done. simpl. lia.
    + rewrite filter_cons_False by done. by apply IH.
Qed.

(** The tuples that the shape relations hold for a label. *)
Definition rhs_count (l : string) (v : StatementVisitor) : nat :=
  tagged l (edb_rhs_var v).*2 + tagged l (edb_rhs_const v).*2 +
  tagged l (edb_rhs_deref v).*2 + tagged l (edb_rhs_address v).*2.

Definition call_arg_count (l : string) (v : StatementVisitor) : nat :=
  tagged l (edb_call_arg_var v).*2 + tagged l (edb_call_arg_const v).*2 +
  tagged l (edb_call_arg_deref v).*2.

Definition one_if (l label : string) : nat :=
  if bool_decide (l = label) then 1 else 0.

Lemma tagged_snoc l xs label :
  tagged l (xs ++ [label]) = (tagged l xs + one_if l label)%nat.
Proof.
  rewrite tagged_app. f_equal. unfold tagged, one_if.
  case_bool_decide as H; [subst; by rewrite filter_cons_True|].
  rewrite filter_cons_False; [done|]. by intros ->.
Qed.

Lemma rhs_count_rhs_shape l rvalue label v :
  (rhs_count l (rhs_shape rvalue label v) ≤ rhs_count l v + one_if l label)%nat.
Proof.
  pose proof (shape_exclusive rvalue) as Hex.
  unfold rhs_shape, when, rhs_count.
  destruct (truthy (is_deref rvalue)), (truthy (is_address rvalue)),
    (truthy (is_var rvalue)), (truthy (is_const rvalue));
    simpl in *; rewrite ?fmap_app; simpl; rewrite ?tagged_snoc; lia.
Qed.

Lemma call_arg_count_call_arg_shape l name arg label v :
  (call_arg_count l (call_arg_shape name arg label v) ≤
   call_arg_count l v + one_if l label)%nat.
Proof.
  pose proof (shape_exclusive arg) as Hex.
  unfold call_arg_shape, when, call_arg_count.
  destruct (truthy (is_deref arg)), (truthy (is_address arg)),
    (truthy (is_var arg)), (truthy (is_const arg));
    simpl in *; rewrite ?fmap_app; simpl; rewrite ?tagged_snoc; lia.
Qed.

Lemma counts_args_state l args label v v' :
  args_state args label v = Ok v' →
  rhs_count l v' = rhs_count l v ∧ call_arg_count l v' = call_arg_count l v.
Proof. intros H. apply args_state_eq in H. by rewrite H. Qed.

Lemma rhs_labels_mentioned l v :
  (1 ≤ rhs_count l v)%nat ∨ (1 ≤ call_arg_count l v)%nat → l ∈ mentioned v.
Proof.
  unfold rhs_count, call_arg_count, mentioned, rhs_labels, call_arg_labels.
  intros H. rewrite !elem_of_app.
  destruct (decide (l ∈ (edb_rhs_var v).*2)); [tauto|].
  destruct (decide (l ∈ (edb_rhs_const v).*2)); [tauto|].
  destruct (decide (l ∈ (edb_rhs_deref v).*2)); [tauto|].
  destruct (decide (l ∈ (edb_rhs_address v).*2)); [tauto|].
  destruct (decide (l ∈ (edb_call_arg_var v).*2)); [tauto|].
  destruct (decide (l ∈ (edb_call_arg_const v).*2)); [tauto|].
  destruct (decide (l ∈ (edb_call_arg_deref v).*2)); [tauto|].
  rewrite !tagged_absent in H by done. lia.
Qed.

(** ** The invariant of the visitor *)

Record wf (v : StatementVisitor) : Prop := mkWf {
  wf_index : (1 ≤ availabe_label_index v)%nat;
  wf_label : edb_label v = label_of <$> seq 1 (availabe_label_index v - 1);
  wf_mentioned : ∀ l, l ∈ mentioned v → fresh 1 (availabe_label_index v) l;
  wf_rhs : ∀ l, (rhs_count l v ≤ 1)%nat;
  wf_call_arg : ∀ l, (call_arg_count l v ≤ 1)%nat;
  wf_return : ∀ l, l ∈ edb_return v → l ∉ sources v;
  wf_call : ∀ c, c ∈ edb_call v → c.1 ∈ edb_function v
}.

Lemma wf_init : wf StatementVisitor_init.
Proof.
  split.
  - simpl. lia.
  - done.
  - intros l Hl. by apply elem_of_nil in Hl.
  - intros l. unfold rhs_count, tagged. simpl. lia.
  - intros l. unfold call_arg_count, tagged. simpl. lia.
  - intros l Hl. by apply elem_of_nil in Hl.
  - intros c Hc. by apply elem_of_nil in Hc.
Qed.

(** [_new_label]: the counter moves on and the label is listed. *)
Definition alloc (v : StatementVisitor) : StatementVisitor :=
  append_label (label_of (availabe_label_index v))
    (set_label_index (availabe_label_index v + 1) v).

(** The label about to be allocated is nowhere yet. *)
Lemma wf_next_unmentioned v :
  wf v → label_of (availabe_label_index v) ∉ mentioned v.
Proof.
  intros Hwf Hin. apply (wf_mentioned _ Hwf) in Hin.
  eapply fresh_disjoint; [|exact Hin|apply fresh_next]. lia.
Qed.

Lemma sources_mentioned v l : l ∈ sources v → l ∈ mentioned v.
Proof. unfold sources, mentioned. rewrite !elem_of_app. tauto. Qed.

Lemma return_mentioned v l : l ∈ edb_return v → l ∈ mentioned v.
Proof. unfold mentioned. rewrite !elem_of_app. tauto. Qed.

Lemma condition_mentioned v l : l ∈ edb_condition v → l ∈ mentioned v.
Proof. unfold mentioned. rewrite !elem_of_app. tauto. Qed.

(** A statement that makes one block: a label is allocated and the rest
    is quiet, with at most one shape tuple of each family for it. *)
Record leaf (v v' : StatementVisitor) : Prop := mkLeaf {
  leaf_quiet : quiet (label_of (availabe_label_index v)) (alloc v) v';
  leaf_rhs : ∀ l,
    (rhs_count l v' ≤
     rhs_count l v + one_if l (label_of (availabe_label_index v)))%nat;
  leaf_call_arg : ∀ l,
    (call_arg_count l v' ≤
     call_arg_count l v + one_if l (label_of (availabe_label_index v)))%nat
}.

Lemma leaf_index v v' :
  leaf v v' → availabe_label_index v' = (availabe_label_index v + 1)%nat.
Proof. intros [Hq _ _]. by rewrite (quiet_index _ _ _ Hq). Qed.

Lemma leaf_flow v v' : leaf v v' → edb_flow v' = edb_flow v.
Proof. intros [Hq _ _]. by rewrite (quiet_flow _ _ _ Hq). Qed.

Lemma leaf_wf v v' : wf v → leaf v v' → wf v'.
Proof.
  intros Hwf Hleaf. pose proof (wf_next_unmentioned _ Hwf) as Hnew.
  pose proof (leaf_index _ _ Hleaf) as Hidx.
  destruct Hleaf as [Hq Hrhs Hcall]. pose proof (wf_index _ Hwf) as H1.
  set (label := label_of (availabe_label_index v)) in *.
  split.
  - lia.
  - rewrite (quiet_label _ _ _ Hq), Hidx. simpl.
    rewrite (wf_label _ Hwf).
    replace (availabe_label_index v + 1 - 1)%nat
      with (S (availabe_label_index v - 1)) by lia.
    rewrite seq_S, fmap_app. simpl. do 3 f_equal. lia.
  - intros l Hl. rewrite Hidx.
    apply (quiet_mentioned _ _ _ Hq) in Hl as [Hl| ->].
    + eapply fresh_mono; [| |exact (wf_mentioned _ Hwf l Hl)]; lia.
    + eapply fresh_mono; [| |apply fresh_next]; lia.
  - intros l. specialize (Hrhs l). pose proof (wf_rhs _ Hwf l) as Hold.
    unfold one_if in Hrhs. case_bool_decide as Heq; [|lia]. subst l.
    destruct (decide (1 ≤ rhs_count label v)%nat) as [Hge|]; [|lia].
    destruct Hnew. apply rhs_labels_mentioned. by left.
  - intros l. specialize (Hcall l). pose proof (wf_call_arg _ Hwf l) as Hold.
    unfold one_if in Hcall. case_bool_decide as Heq; [|lia]. subst l.
    destruct (decide (1 ≤ call_arg_count label v)%nat) as [Hge|]; [|lia].
    destruct Hnew. apply rhs_labels_mentioned. by right.
  - intros l Hl. unfold sources. rewrite (quiet_flow _ _ _ Hq). simpl.
    apply (quiet_return _ _ _ Hq) in Hl as [Hl| ->].
    + by apply (wf_return _ Hwf).
    + intros Hin. apply Hnew. by apply sources_mentioned.
  - intros c Hc. apply (quiet_call _ _ _ Hq) in Hc as [Hc|[Hc _]]; [|done].
    apply (quiet_function _ _ _ Hq). simpl. by apply (wf_call _ Hwf).
Qed.

(** ** Growth of the relations between two moments of a build *)

Record grows (v v' : StatementVisitor) : Prop := mkGrows {
  grows_index : (availabe_label_index v ≤ availabe_label_index v')%nat;
  grows_sources : ∀ l,
    l ∈ sources v' →
    l ∈ sources v ∨ fresh (availabe_label_index v) (availabe_label_index v') l;
  grows_return : ∀ l,
    l ∈ edb_return v' →
    l ∈ edb_return v ∨
    fresh (availabe_label_index v) (availabe_label_index v') l;
  grows_condition : ∀ l, l ∈ edb_condition v → l ∈ edb_condition v'
}.

Lemma grows_refl v : grows v v.
Proof. split; auto. Qed.

Lemma grows_trans v1 v2 v3 : grows v1 v2 → grows v2 v3 → grows v1 v3.
Proof.
  intros H1 H2. pose proof (grows_index _ _ H1). pose proof (grows_index _ _ H2).
  split.
  - lia.
  - intros l Hl. apply (grows_sources _ _ H2) in Hl as [Hl|Hl].
    + apply (grows_sources _ _ H1) in Hl as [Hl|Hl]; [by left|right].
      eapply fresh_mono; [| |exact Hl]; lia.
    + right. eapply fresh_mono; [| |exact Hl]; lia.
  - intros l Hl. apply (grows_return _ _ H2) in Hl as [Hl|Hl].
    + apply (grows_return _ _ H1) in Hl as [Hl|Hl]; [by left|right].
      eapply fresh_mono; [| |exact Hl]; lia.
    + right. eapply fresh_mono; [| |exact Hl]; lia.
  - intros l Hl. apply (grows_condition _ _ H2). by apply (grows_condition _ _ H1).
Qed.

Lemma leaf_grows v v' : leaf v v' → grows v v'.
Proof.
  intros Hleaf. pose proof (leaf_index _ _ Hleaf) as Hidx.
  destruct Hleaf as [Hq _ _]. split.
  - lia.
  - intros l. unfold sources. rewrite (quiet_flow _ _ _ Hq). simpl. by left.
  - intros l Hl. apply (quiet_return _ _ _ Hq) in Hl as [Hl| ->]; [by left|].
    right. rewrite Hidx. apply fresh_next.
  - intros l Hl. by apply (quiet_condition _ _ _ Hq).
Qed.

(** An open exit: not a return, and a source of arcs only if it is a
    condition block. *)
Definition exit_ok (v : StatementVisitor) (l : string) : Prop :=
  (l ∉ edb_return v) ∧ (l ∈ sources v → l ∈ edb_condition v).

Definition open_exits (a : nat) (v : StatementVisitor) (finals : list string)
    : Prop :=
  ∀ l, l ∈ finals → fresh a (availabe_label_index v) l ∧ exit_ok v l.

Definition frag_ok (v v' : StatementVisitor) (frag : fragment) : Prop :=
  fresh (availabe_label_index v) (availabe_label_index v') frag.1 ∧
  open_exits (availabe_label_index v) v' frag.2.

Lemma exit_ok_grows a v v' l :
  fresh a (availabe_label_index v) l → exit_ok v l → grows v v' →
  exit_ok v' l.
Proof.
  intros Hfresh [Hret Hsrc] Hg. split.
  - intros Hin. apply (grows_return _ _ Hg) in Hin as [Hin|Hin]; [done|].
    eapply fresh_disjoint; [|exact Hfresh|exact Hin]. lia.
  - intros Hin. apply (grows_sources _ _ Hg) in Hin as [Hin|Hin].
    + by apply (grows_condition _ _ Hg), Hsrc.
    + exfalso. eapply fresh_disjoint; [|exact Hfresh|exact Hin]. lia.
Qed.

Lemma open_exits_grows a v v' finals :
  open_exits a v finals → grows v v' → open_exits a v' finals.
Proof.
  intros Hopen Hg l Hl. destruct (Hopen l Hl) as [Hfresh Hok].
  pose proof (grows_index _ _ Hg). split.
  - eapply fresh_mono; [| |exact Hfresh]; lia.
  - by eapply exit_ok_grows.
Qed.

(** ** Arcs *)

Lemma append_flow_add_arcs s d v : append_flow (s, d) v = add_arcs [s] d v.
Proof. reflexivity. Qed.

Lemma fst_arcs (srcs : list string) (d : string) :
  ((λ s, (s, d)) <$> srcs).*1 = srcs.
Proof.
  induction srcs as [|s srcs IH]; [done|]. rewrite !fmap_cons. simpl.
  by f_equal.
Qed.

Lemma sources_add_arcs srcs d v : sources (add_arcs srcs d v) = sources v ++ srcs.
Proof.
  unfold sources, add_arcs. simpl. rewrite fmap_app. f_equal. apply fst_arcs.
Qed.

Lemma snd_arcs (srcs : list string) (d l : string) :
  l ∈ ((λ s, (s, d)) <$> srcs).*2 → l = d.
Proof.
  induction srcs as [|s srcs IH]; [by rewrite elem_of_nil|].
  rewrite !fmap_cons, elem_of_cons. simpl. intros [->|H]; [done|by apply IH].
Qed.

Lemma mentioned_add_arcs srcs d v l :
  l ∈ mentioned (add_arcs srcs d v) → l ∈ mentioned v ∨ l ∈ srcs ∨ l = d.
Proof.
  unfold mentioned, add_arcs, rhs_labels, call_arg_labels. simpl.
  rewrite !fmap_app, fst_arcs, !elem_of_app.
  pose proof (snd_arcs srcs d l) as Hd. tauto.
Qed.

Lemma wf_add_arcs srcs d v :
  wf v →
  (∀ s, s ∈ srcs → fresh 1 (availabe_label_index v) s ∧ s ∉ edb_return v) →
  fresh 1 (availabe_label_index v) d →
  wf (add_arcs srcs d v).
Proof.
  intros Hwf Hsrcs Hd. split; try apply Hwf.
  - intros l Hl. apply mentioned_add_arcs in Hl as [Hl|[Hl| ->]]; [|by apply Hsrcs|done].
    by apply (wf_mentioned _ Hwf).
  - intros l Hl. rewrite sources_add_arcs, elem_of_app. intros [Hin|Hin].
    + by apply (wf_return _ Hwf l).
    + by apply (Hsrcs l Hin).
Qed.

Lemma grows_add_arcs v0 srcs d v :
  grows v0 v →
  (∀ s, s ∈ srcs → fresh (availabe_label_index v0) (availabe_label_index v) s) →
  grows v0 (add_arcs srcs d v).
Proof.
  intros Hg Hsrcs. split; try apply Hg.
  intros l. rewrite sources_add_arcs, elem_of_app. intros [Hl|Hl].
  - by apply (grows_sources _ _ Hg).
  - right. by apply Hsrcs.
Qed.

Lemma exit_ok_add_arcs srcs d v l :
  exit_ok v l → (l ∈ srcs → l ∈ edb_condition v) →
  exit_ok (add_arcs srcs d v) l.
Proof.
  intros [Hret Hsrc] Hcond. split; [done|].
  rewrite sources_add_arcs, elem_of_app. intros [Hin|Hin]; auto.
Qed.

(** ** The statements that make one block *)

Ltac counts_same :=
  intros ?; unfold rhs_count, call_arg_count, alloc; state_norm; lia.

Lemma visit_Return_leaf expr v frag v' :
  StatementVisitor.visit_Return expr v = Ok (frag, v') →
  frag = (label_of (availabe_label_index v), []) ∧ leaf v v'.
Proof.
  rewrite visit_Return_eq. destruct (scan expr) as [e|e]; [|done].
  cbv zeta. intros [= <- <-]. split; [done|]. split.
  - eapply quiet_trans; [apply quiet_add_variables|].
    eapply quiet_trans; [apply quiet_add_used|]. apply quiet_append_return.
  - counts_same.
  - counts_same.
Qed.

Lemma visit_Return_return expr v frag v' :
  StatementVisitor.visit_Return expr v = Ok (frag, v') →
  label_of (availabe_label_index v) ∈ edb_return v'.
Proof.
  rewrite visit_Return_eq. destruct (scan expr) as [e|e]; [|done].
  cbv zeta. intros [= <- <-]. simpl. rewrite elem_of_app, list_elem_of_singleton.
  by right.
Qed.

Lemma visit_Assignment_leaf op lvalue rvalue v frag v' :
  StatementVisitor.visit_Assignment op lvalue rvalue v = Ok (frag, v') →
  frag = (label_of (availabe_label_index v), [label_of (availabe_label_index v)]) ∧
  leaf v v' ∧ edb_return v' = edb_return v.
Proof.
  rewrite visit_Assignment_eq. destruct (scan rvalue) as [r|e]; [|done].
  cbv zeta. destruct (scan lvalue) as [l|e]; [|done].
  unfold defined_state. fold (alloc v).
  set (label := label_of (availabe_label_index v)).
  set (v0 := add_used _ _ _ _).
  set (v1 := add_variables _ (rhs_shape _ _ _)).
  assert (quiet label (alloc v) v0) as Hq0.
  { eapply quiet_trans; [apply quiet_add_variables|]. apply quiet_add_used. }
  assert (quiet label (alloc v) v1) as Hq.
  { eapply quiet_trans; [exact Hq0|].
    eapply quiet_trans; [apply quiet_rhs_shape|]. apply quiet_add_variables. }
  assert (∀ x, rhs_count x v0 = rhs_count x v ∧
               call_arg_count x v0 = call_arg_count x v) as Hc0.
  { intros x. unfold v0, rhs_count, call_arg_count, alloc. by state_norm. }
  assert (∀ x, (rhs_count x v1 ≤ rhs_count x v + one_if x label)%nat) as Hrhs.
  { intros x. destruct (Hc0 x) as [<- _].
    etrans; [|apply (rhs_count_rhs_shape x rvalue label v0)].
    unfold v1. by rewrite add_variables_eq. }
  assert (∀ x, call_arg_count x v1 = call_arg_count x v) as Hcall.
  { intros x. destruct (Hc0 x) as [_ <-]. unfold v1, call_arg_count.
    by state_norm. }
  assert (edb_return v1 = edb_return v) as Hret.
  { unfold v1, v0, alloc. by state_norm. }
  clearbody v1. clear Hq0 Hc0 v0.
  case_bool_decide as H1; [|case_bool_decide as H2; [|done]];
    intros [= <- <-]; (split; [done|]); (split; [split|]).
  - eapply quiet_trans; [exact Hq|].
    eapply quiet_trans; [apply quiet_append_defined|].
    apply quiet_append_assignment.
  - intros x. exact (Hrhs x).
  - intros x. specialize (Hcall x). unfold call_arg_count in *. simpl. lia.
  - exact Hret.
  - eapply quiet_trans; [exact Hq|].
    eapply quiet_trans; [apply quiet_append_defined_deref|].
    apply quiet_append_assignment.
  - intros x. exact (Hrhs x).
  - intros x. specialize (Hcall x). unfold call_arg_count in *. simpl. lia.
  - exact Hret.
Qed.

Lemma visit_FuncCall_leaf name args v frag v' :
  StatementVisitor.visit_FuncCall name args v = Ok (frag, v') →
  frag = (label_of (availabe_label_index v), [label_of (availabe_label_index v)]) ∧
  leaf v v' ∧ edb_return v' = edb_return v.
Proof.
  rewrite visit_FuncCall_eq. cbv zeta. fold (alloc v).
  set (label := label_of (availabe_label_index v)).
  assert (quiet label (alloc v)
            (append_call (name, label) (add_function name (alloc v)))) as Hq0.
  { eapply quiet_trans; [apply quiet_add_function|]. apply quiet_append_call. }
  assert (∀ x, rhs_count x (append_call (name, label) (add_function name (alloc v)))
               = rhs_count x v ∧
               call_arg_count x (append_call (name, label)
                                   (add_function name (alloc v)))
               = call_arg_count x v) as Hc0.
  { intros x. unfold add_function, alloc. by case_bool_decide. }
  assert (edb_return (append_call (name, label) (add_function name (alloc v)))
          = edb_return v) as Hr0.
  { unfold add_function, alloc. by case_bool_decide. }
  destruct args as [args'|].
  - destruct (args_state args' _ _) as [v1|e] eqn:E; [|done].
    pose proof (quiet_args_state _ _ _ _ E) as Hq1.
    assert (edb_return v1 = edb_return v) as Hr1.
    { rewrite <- Hr0. apply args_state_eq in E. by rewrite E. }
    destruct (sole (Some args')) as [arg|];
      intros [= <- <-]; (split; [done|]); (split; [split|]).
    + eapply quiet_trans; [exact Hq0|]. eapply quiet_trans; [exact Hq1|].
      apply quiet_call_arg_shape.
    + intros x. destruct (counts_args_state x _ _ _ _ E) as [Hx _].
      destruct (Hc0 x) as [Hy _]. rewrite <- Hy, <- Hx.
      unfold rhs_count, call_arg_shape, when. repeat case_match; simpl; lia.
    + intros x. destruct (counts_args_state x _ _ _ _ E) as [_ Hx].
      destruct (Hc0 x) as [_ Hy]. rewrite <- Hy, <- Hx.
      apply call_arg_count_call_arg_shape.
    + rewrite <- Hr1. unfold call_arg_shape, when. by repeat case_match.
    + eapply quiet_trans; [exact Hq0|exact Hq1].
    + intros x. destruct (counts_args_state x _ _ _ _ E) as [Hx _].
      destruct (Hc0 x) as [Hy _]. lia.
    + intros x. destruct (counts_args_state x _ _ _ _ E) as [_ Hx].
      destruct (Hc0 x) as [_ Hy]. lia.
    + done.
  - intros [= <- <-]. split; [done|]. split; [split|done].
    + exact Hq0.
    + intros x. destruct (Hc0 x). lia.
    + intros x. destruct (Hc0 x). lia.
Qed.

Lemma condition_block_eq cond v :
  StatementVisitor.condition_block cond v =
  match scan cond with
  | Ok e =>
      let label := label_of (availabe_label_index v) in
      Ok (label,
          add_used (variables e) (deref_variables e) label
            (add_variables (elements (variables e) ++
                            elements (deref_variables e))
               (append_condition label (alloc v))))
  | Raise e => Raise e
  end.
Proof.
  unfold StatementVisitor.condition_block,
    StatementVisitor._add_elementary_block.
  unfold_visitor. rewrite _new_label_eq, _process_expr_eq.
  destruct (scan cond) as [e|e]; [|done]. by rewrite _add_used_eq.
Qed.

Lemma condition_block_leaf cond v label v' :
  StatementVisitor.condition_block cond v = Ok (label, v') →
  label = label_of (availabe_label_index v) ∧ leaf v v' ∧
  edb_return v' = edb_return v ∧ label ∈ edb_condition v'.
Proof.
  rewrite condition_block_eq. destruct (scan cond) as [e|e]; [|done].
  cbv zeta. intros [= <- <-]. split; [done|]. split; [split|split].
  - eapply quiet_trans; [apply quiet_append_condition|].
    eapply quiet_trans; [apply quiet_add_variables|]. apply quiet_add_used.
  - counts_same.
  - counts_same.
  - by state_norm.
  - state_norm. rewrite elem_of_app, list_elem_of_singleton. by right.
Qed.

(** ** Induction over the statements a visit reaches *)

Section node_stmt_ind.
Variable P : node → Prop.
Hypothesis HPyNone : P PyNone.
Hypothesis HConstant : ∀ value, P (Constant value).
Hypothesis HID : ∀ name, P (ID name).
Hypothesis HUnaryOp : ∀ op expr, P (UnaryOp op expr).
Hypothesis HBinaryOp : ∀ op l r, P (BinaryOp op l r).
Hypothesis HFileAST : ∀ ext, Forall P ext → P (FileAST ext).
Hypothesis HFuncDef : ∀ decl_name body, P body → P (FuncDef decl_name body).
Hypothesis HCompound :
  ∀ block_items,
    match block_items with Some items => Forall P items | None => True end →
    P (Compound block_items).
Hypothesis HIf : ∀ cond iftrue iffalse,
  P iftrue → P iffalse → P (If cond iftrue iffalse).
Hypothesis HFuncCall : ∀ name args, P (FuncCall name args).
Hypothesis HWhile : ∀ cond stmt, P stmt → P (While cond stmt).
Hypothesis HAssignment : ∀ op lvalue rvalue, P (Assignment op lvalue rvalue).
Hypothesis HReturn : ∀ expr, P (Return expr).
Hypothesis HOther : ∀ kind, P (Other kind).

Fixpoint node_stmt_ind (n : node) : P n :=
  let fix all (items : list node) : Forall P items :=
    match items return Forall P items with
    | [] => @List.Forall_nil node P
    | x :: items' => @List.Forall_cons node P x items' (node_stmt_ind x) (all items')
    end in
  match n with
  | PyNone => HPyNone
  | Constant value => HConstant value
  | ID name => HID name
  | UnaryOp op expr => HUnaryOp op expr
  | BinaryOp op l r => HBinaryOp op l r
  | FileAST ext => HFileAST ext (all ext)
  | FuncDef decl_name body => HFuncDef decl_name body (node_stmt_ind body)
  | Compound block_items =>
      HCompound block_items
        match block_items
          return match block_items with
                 | Some items => Forall P items
                 | None => True
                 end
        with
        | Some items => all items
        | None => I
        end
  | If cond iftrue iffalse =>
      HIf cond iftrue iffalse (node_stmt_ind iftrue) (node_stmt_ind iffalse)
  | FuncCall name args => HFuncCall name args
  | While cond stmt => HWhile cond stmt (node_stmt_ind stmt)
  | Assignment op lvalue rvalue => HAssignment op lvalue rvalue
  | Return expr => HReturn expr
  | Other kind => HOther kind
  end.
End node_stmt_ind.

(** ** Every visit keeps the invariant *)

Definition visit_ok (n : node) : Prop :=
  ∀ v frag v',
    StatementVisitor.visit n v = Ok (frag, v') → wf v →
    wf v' ∧ grows v v' ∧ frag_ok v v' frag.

Lemma leaf_frag v v' :
  wf v → leaf v v' → edb_return v' = edb_return v →
  frag_ok v v' (label_of (availabe_label_index v),
                [label_of (availabe_label_index v)]).
Proof.
  intros Hwf Hleaf Hret. pose proof (wf_next_unmentioned _ Hwf) as Hnew.
  assert (fresh (availabe_label_index v) (availabe_label_index v')
            (label_of (availabe_label_index v))) as Hfresh.
  { rewrite (leaf_index _ _ Hleaf). apply fresh_next. }
  split; [done|]. intros l Hl. apply list_elem_of_singleton in Hl as ->.
  split; [done|]. split.
  - rewrite Hret. intros Hin. by apply Hnew, return_mentioned.
  - unfold sources. rewrite (leaf_flow _ _ Hleaf). intros Hin.
    destruct Hnew. by apply sources_mentioned.
Qed.

(** An arc from a condition block [cl] into the entry [i] of a fragment
    with open exits [f], next to exits [F0] already open. *)
Lemma arc_into v0 va cl i F0 f :
  (1 ≤ availabe_label_index v0)%nat →
  wf va → grows v0 va →
  fresh (availabe_label_index v0) (availabe_label_index va) cl →
  cl ∈ edb_condition va → exit_ok va cl →
  fresh (availabe_label_index v0) (availabe_label_index va) i →
  open_exits (availabe_label_index v0) va F0 →
  open_exits (availabe_label_index v0) va f →
  wf (add_arcs [cl] i va) ∧ grows v0 (add_arcs [cl] i va) ∧
  open_exits (availabe_label_index v0) (add_arcs [cl] i va) (F0 ++ f) ∧
  exit_ok (add_arcs [cl] i va) cl.
Proof.
  intros H1 Hwf Hg Hcl Hcond Hexit Hi HF0 Hf.
  split; [|split; [|split]].
  - apply wf_add_arcs; [done| |].
    + intros s Hs. apply list_elem_of_singleton in Hs as ->. split.
      * eapply fresh_mono; [| |exact Hcl]; lia.
      * apply Hexit.
    + eapply fresh_mono; [| |exact Hi]; lia.
  - apply grows_add_arcs; [done|].
    intros s Hs. by apply list_elem_of_singleton in Hs as ->.
  - intros l Hl. apply elem_of_app in Hl.
    assert (fresh (availabe_label_index v0) (availabe_label_index va) l ∧
            exit_ok va l) as [Hfresh Hok].
    { destruct Hl as [Hl|Hl]; [by apply HF0|by apply Hf]. }
    split; [done|]. apply exit_ok_add_arcs; [done|].
    intros Hin. by apply list_elem_of_singleton in Hin as ->.
  - apply exit_ok_add_arcs; [done|]. by intros _.
Qed.

Lemma index_add_arcs srcs d v :
  availabe_label_index (add_arcs srcs d v) = availabe_label_index v.
Proof. reflexivity. Qed.

Lemma _add_arc_eq source destination arc_label v :
  StatementVisitor._add_arc source destination arc_label v =
  Ok (tt, add_arcs [source] destination v).
Proof. reflexivity. Qed.

Lemma Compound_tail_ok tail :
  Forall visit_ok tail →
  ∀ v0 prev v finals v',
    StatementVisitor.Compound_tail StatementVisitor.visit tail prev v =
      Ok (finals, v') →
    (1 ≤ availabe_label_index v0)%nat →
    wf v → grows v0 v → open_exits (availabe_label_index v0) v prev →
    wf v' ∧ grows v0 v' ∧ open_exits (availabe_label_index v0) v' finals ∧
    (availabe_label_index v ≤ availabe_label_index v')%nat.
Proof.
  induction 1 as [|stmt tail Hstmt _ IH]; intros v0 prev v finals v'; simpl.
  - intros [= <- <-]. auto.
  - intros Hrun Hone Hwf Hg Hprev.
    apply bind_Ok in Hrun as ([ci cf] & v1 & Hvisit & Hrun).
    apply bind_Ok in Hrun as ([] & v2 & Harcs & Hrun).
    rewrite for_each_add_arc in Harcs. injection Harcs as <-.
    destruct (Hstmt _ _ _ Hvisit Hwf) as (Hwf1 & Hg1 & Hci & Hcf).
    simpl in Hci, Hcf.
    pose proof (grows_index _ _ Hg) as Hle. pose proof (grows_index _ _ Hg1) as Hle1.
    assert (grows v0 v1) as Hg01 by (by eapply grows_trans).
    pose proof (open_exits_grows _ _ _ _ Hprev Hg1) as Hprev1.
    cut (wf v' ∧ grows v0 v' ∧ open_exits (availabe_label_index v0) v' finals ∧
         (availabe_label_index (add_arcs prev ci v1) ≤ availabe_label_index v')%nat).
    { intros (Ha & Hb & Hc & Hd). split; [done|]. split; [done|].
      split; [done|]. simpl in Hd. lia. }
    apply (IH v0 cf _ _ _ Hrun Hone).
    + apply wf_add_arcs; [done| |].
      * intros s Hs. destruct (Hprev1 s Hs) as [Hfresh [Hret _]].
        split; [|done]. eapply fresh_mono; [| |exact Hfresh]; lia.
      * eapply fresh_mono; [| |exact Hci]; lia.
    + apply grows_add_arcs; [done|]. intros s Hs. by apply Hprev1.
    + intros l Hl. destruct (Hcf l Hl) as [Hfresh Hok]. split.
      * simpl. eapply fresh_mono; [| |exact Hfresh]; lia.
      * apply exit_ok_add_arcs; [done|]. intros Hin.
        destruct (Hprev l Hin) as [Hold _]. exfalso.
        eapply fresh_disjoint; [|exact Hold|exact Hfresh]. lia.
Qed.

(** One arm of a conditional: the arm's fragment hangs off the condition
    block [cl], or [cl] itself stays open when the arm is absent. *)
Lemma branch_ok t tag cl F0 v0 v1 F v2 :
  visit_ok t →
  (if negb (is_None t) then
     '(i, f) ← StatementVisitor.visit t;
     StatementVisitor._add_arc cl i tag;;
     mret (F0 ++ f)
   else mret (F0 ++ [cl])) v1 = Ok (F, v2) →
  (1 ≤ availabe_label_index v0)%nat →
  wf v1 → grows v0 v1 →
  fresh (availabe_label_index v0) (availabe_label_index v1) cl →
  cl ∈ edb_condition v1 → exit_ok v1 cl →
  open_exits (availabe_label_index v0) v1 F0 →
  wf v2 ∧ grows v0 v2 ∧ open_exits (availabe_label_index v0) v2 F ∧
  fresh (availabe_label_index v0) (availabe_label_index v2) cl ∧
  cl ∈ edb_condition v2 ∧ exit_ok v2 cl.
Proof.
  intros Ht Hrun Hone Hwf Hg Hcl Hcond Hexit HF0.
  destruct (is_None t); simpl in Hrun.
  - injection Hrun as <- <-. repeat (split; [done|]). split; [|done].
    intros l Hl. apply elem_of_app in Hl as [Hl|Hl]; [by apply HF0|].
    by apply list_elem_of_singleton in Hl as ->.
  - apply bind_Ok in Hrun as ([i f] & va & Hvisit & Hrun).
    apply bind_Ok in Hrun as ([] & vb & Harc & Hrun).
    rewrite _add_arc_eq in Harc. injection Harc as <-.
    injection Hrun as <- <-.
    destruct (Ht _ _ _ Hvisit Hwf) as (Hwfa & Hga & Hi & Hf).
    simpl in Hi, Hf.
    pose proof (grows_index _ _ Hg) as Hle.
    pose proof (grows_index _ _ Hga) as Hlea.
    assert (fresh (availabe_label_index v0) (availabe_label_index va) cl) as Hcla.
    { eapply fresh_mono; [| |exact Hcl]; lia. }
    assert (cl ∈ edb_condition va) as Hconda by (by apply (grows_condition _ _ Hga)).
    assert (grows v0 va) as Hg0a by (by eapply grows_trans).
    assert (exit_ok va cl) as Hexita.
    { eapply exit_ok_grows; [exact Hcl|exact Hexit|exact Hga]. }
    assert (fresh (availabe_label_index v0) (availabe_label_index va) i) as Hia.
    { eapply fresh_mono; [| |exact Hi]; lia. }
    assert (open_exits (availabe_label_index v0) va F0) as HF0a.
    { eapply open_exits_grows; [exact HF0|exact Hga]. }
    assert (open_exits (availabe_label_index v0) va f) as Hfa.
    { intros l Hl. destruct (Hf l Hl) as [Hfresh Hok]. split; [|done].
      eapply fresh_mono; [| |exact Hfresh]; lia. }
    destruct (arc_into v0 va cl i F0 f Hone Hwfa Hg0a Hcla Hconda Hexita Hia
                HF0a Hfa) as (Hwfb & Hgb & Hopen & Hexitb).
    done.
Qed.

(** A visit that returns keeps the invariant, moves the relations on
    by labels it allocated itself, and hands back a fragment whose
    entry is such a label and whose exits are open. *)
Lemma visit_wf n : visit_ok n.
Proof.
  induction n as
    [ | value | name | op expr | op l r | ext IHext | decl_name body IHbody
    | block_items IHitems | cond iftrue iffalse IHtrue IHfalse | name args
    | cond stmt IHstmt | op lvalue rvalue | expr | kind ]
    using node_stmt_ind; intros v frag v' Hrun Hwf;
    try discriminate Hrun.
  - (* FileAST *)
    simpl in Hrun. destruct ext as [|ext0 [|]]; try discriminate Hrun.
    apply Forall_cons in IHext as [Hext0 _].
    destruct ext0; try discriminate Hrun. by apply Hext0.
  - (* FuncDef *)
    simpl in Hrun. destruct (String.eqb decl_name "main"); [|discriminate Hrun].
    by apply IHbody.
  - (* Compound *)
    simpl in Hrun.
    destruct block_items as [[|head tail]|]; try discriminate Hrun.
    apply Forall_cons in IHitems as [Hhead Htail].
    apply bind_Ok in Hrun as ([hi hf] & v1 & Hvisit & Hrun).
    apply bind_Ok in Hrun as (finals & v2 & Htl & Hrun).
    injection Hrun as <- <-.
    destruct (Hhead _ _ _ Hvisit Hwf) as (Hwf1 & Hg1 & Hhi & Hhf).
    simpl in Hhi, Hhf.
    destruct (Compound_tail_ok _ Htail v _ _ _ _ Htl (wf_index _ Hwf) Hwf1 Hg1 Hhf)
      as (Hwf2 & Hg2 & Hfinals & Hle).
    split; [done|]. split; [done|]. split; [|done]. simpl.
    eapply fresh_mono; [| |exact Hhi]; lia.
  - (* If *)
    simpl in Hrun. destruct (is_None cond); [discriminate Hrun|].
    apply bind_Ok in Hrun as (cl & v1 & Hcond & Hrun).
    destruct (is_None iftrue && is_None iffalse); [discriminate Hrun|].
    apply bind_Ok in Hrun as (F1 & v2 & Htrue & Hrun).
    apply bind_Ok in Hrun as (F2 & v3 & Hfalse & Hrun).
    injection Hrun as <- <-.
    destruct (condition_block_leaf _ _ _ _ Hcond) as (-> & Hleaf & Hret & Hin).
    destruct (leaf_frag _ _ Hwf Hleaf Hret) as [Hcl Hopen]. simpl in Hcl, Hopen.
    destruct (Hopen _ (list_elem_of_here _ _)) as [_ Hexit].
    destruct (branch_ok iftrue (Some "true") _ [] v v1 F1 v2 IHtrue Htrue)
      as (Hwf2 & Hg2 & HF1 & Hcl2 & Hin2 & Hexit2);
      [exact (wf_index _ Hwf)|by eapply leaf_wf|by apply leaf_grows|done..| |].
    { intros l Hl. by apply elem_of_nil in Hl. }
    destruct (branch_ok iffalse (Some "false") _ F1 v v2 F2 v3 IHfalse Hfalse)
      as (Hwf3 & Hg3 & HF2 & Hcl3 & _ & _); try done.
    exact (wf_index _ Hwf).
  - (* FuncCall *)
    simpl in Hrun.
    destruct (visit_FuncCall_leaf _ _ _ _ _ Hrun) as (-> & Hleaf & Hret).
    split; [by eapply leaf_wf|]. split; [by apply leaf_grows|].
    by apply leaf_frag.
  - (* While *)
    simpl in Hrun. destruct (is_None cond); [discriminate Hrun|].
    apply bind_Ok in Hrun as (cl & v1 & Hcond & Hrun).
    apply bind_Ok in Hrun as ([] & v2 & Hbody & Hrun).
    injection Hrun as <- <-.
    destruct (condition_block_leaf _ _ _ _ Hcond) as (-> & Hleaf & Hret & Hin).
    destruct (leaf_frag _ _ Hwf Hleaf Hret) as [Hcl Hopen]. simpl in Hcl, Hopen.
    destruct (Hopen _ (list_elem_of_here _ _)) as [_ Hexit].
    pose proof (leaf_wf _ _ Hwf Hleaf) as Hwf1.
    pose proof (leaf_grows _ _ Hleaf) as Hg1.
    pose proof (wf_index _ Hwf) as Hone.
    set (cl := label_of (availabe_label_index v)) in *.
    destruct (is_None stmt); simpl in Hbody.
    + injection Hbody as <-. split; [done|]. split; [done|]. split; [done|].
      intros l Hl. apply list_elem_of_singleton in Hl as ->. by split.
    + apply bind_Ok in Hbody as ([bi bf] & va & Hvisit & Hbody).
      apply bind_Ok in Hbody as ([] & vb & Harc & Hbody).
      rewrite _add_arc_eq in Harc. injection Harc as <-.
      rewrite for_each_add_arc in Hbody. injection Hbody as <-.
      destruct (IHstmt _ _ _ Hvisit Hwf1) as (Hwfa & Hga & Hbi & Hbf).
      simpl in Hbi, Hbf.
      pose proof (grows_index _ _ Hg1) as Hle.
      pose proof (grows_index _ _ Hga) as Hlea.
      assert (fresh (availabe_label_index v) (availabe_label_index va) cl) as Hcla.
      { eapply fresh_mono; [| |exact Hcl]; lia. }
      assert (cl ∈ edb_condition va) as Hconda
        by (by apply (grows_condition _ _ Hga)).
      assert (open_exits (availabe_label_index v) va bf) as Hbf'.
      { intros l Hl. destruct (Hbf l Hl) as [Hfresh Hok]. split; [|done].
        eapply fresh_mono; [| |exact Hfresh]; lia. }
      assert (grows v va) as Hg0a by (by eapply grows_trans).
      assert (exit_ok va cl) as Hexita.
      { eapply exit_ok_grows; [exact Hcl|exact Hexit|exact Hga]. }
      assert (fresh (availabe_label_index v) (availabe_label_index va) bi) as Hia.
      { eapply fresh_mono; [| |exact Hbi]; lia. }
      assert (open_exits (availabe_label_index v) va []) as Hnil.
      { intros l Hl. by apply elem_of_nil in Hl. }
      destruct (arc_into v va cl bi [] bf Hone Hwfa Hg0a Hcla Hconda Hexita Hia
                  Hnil Hbf') as (Hwfb & Hgb & Hopenb & Hexitb).
      change ([] ++ bf) with bf in Hopenb.
      split; [|split; [|split]].
      * apply wf_add_arcs; [done| |].
        -- intros s Hs. destruct (Hopenb s Hs) as [Hfresh [Hnret _]].
           split; [|done]. rewrite index_add_arcs in *.
           eapply fresh_mono; [| |exact Hfresh]; lia.
        -- rewrite index_add_arcs. eapply fresh_mono; [| |exact Hcla]; lia.
      * apply grows_add_arcs; [done|]. intros s Hs. by apply Hopenb.
      * done.
      * intros l Hl. apply list_elem_of_singleton in Hl as ->.
        split; [done|]. apply exit_ok_add_arcs; [done|]. by intros _.
  - (* Assignment *)
    simpl in Hrun.
    destruct (visit_Assignment_leaf _ _ _ _ _ _ Hrun) as (-> & Hleaf & Hret).
    split; [by eapply leaf_wf|]. split; [by apply leaf_grows|].
    by apply leaf_frag.
  - (* Return *)
    simpl in Hrun.
    destruct (visit_Return_leaf _ _ _ _ Hrun) as (-> & Hleaf).
    split; [by eapply leaf_wf|]. split; [by apply leaf_grows|].
    split; simpl.
    + rewrite (leaf_index _ _ Hleaf). apply fresh_next.
    + intros l Hl. by apply elem_of_nil in Hl.
Qed.

(** ** Whole programs *)

(** What [generate_cfg] returns for an accepted program: the visitor
    after the walk, the fragment of the root, and the two relations made
    from it. *)
Lemma generate_cfg_Ok ast e :
  generate_cfg ast = Ok e →
  ∃ init finals,
    StatementVisitor.visit ast StatementVisitor_init = Ok ((init, finals), edb e) ∧
    edb_init e = [init] ∧
    edb_final e = elements (list_to_set (finals ++ edb_return (edb e)) : gset string).
Proof.
  unfold generate_cfg.
  destruct (StatementVisitor.visit ast StatementVisitor_init)
    as [[[init finals] v]|err]; [|done].
  intros [= <-]. by exists init, finals.
Qed.

Lemma fresh_label v l :
  wf v → fresh 1 (availabe_label_index v) l → l ∈ edb_label v.
Proof.
  intros Hwf (i & Hi & ->). rewrite (wf_label _ Hwf).
  apply list_elem_of_fmap_2, elem_of_seq. lia.
Qed.

Lemma wf_label_NoDup v : wf v → NoDup (edb_label v).
Proof.
  intros Hwf. rewrite (wf_label _ Hwf).
  apply NoDup_fmap_2_strong; [|apply NoDup_seq].
  intros i j _ _. apply label_of_inj.
Qed.

(** The invariant at the end of an accepted build. *)
Lemma generate_cfg_wf ast e :
  generate_cfg ast = Ok e →
  ∃ init finals,
    edb_init e = [init] ∧
    edb_final e = elements (list_to_set (finals ++ edb_return (edb e)) : gset string) ∧
    wf (edb e) ∧
    fresh 1 (availabe_label_index (edb e)) init ∧
    open_exits 1 (edb e) finals.
Proof.
  intros Hgen.
  apply generate_cfg_Ok in Hgen as (init & finals & Hrun & Hinit & Hfinal).
  destruct (visit_wf _ _ _ _ Hrun wf_init) as (Hwf & Hg & Hfrag & Hopen).
  by exists init, finals.
Qed.

Lemma mentioned_label v l : wf v → l ∈ mentioned v → l ∈ edb_label v.
Proof. intros Hwf Hl. by apply fresh_label, (wf_mentioned _ Hwf). Qed.

(** The labels of a finished build are [l1 ... ln], each once, in the
    order of allocation, and every label a relation mentions (arcs,
    statement kinds, uses and definitions, shape tags, [init], [final])
    is one of them. *)
Theorem labels_unique_and_closed ast e :
  generate_cfg ast = Ok e →
  edb_label (edb e) =
    label_of <$> seq 1 (availabe_label_index (edb e) - 1) ∧
  NoDup (edb_label (edb e)) ∧
  (∀ l, l ∈ mentioned (edb e) → l ∈ edb_label (edb e)) ∧
  (∀ l, l ∈ edb_init e → l ∈ edb_label (edb e)) ∧
  (∀ l, l ∈ edb_final e → l ∈ edb_label (edb e)).
Proof.
  intros Hgen.
  apply generate_cfg_wf in Hgen as (init & finals & Hinit & Hfinal & Hwf & Hfrag & Hopen).
  split; [apply (wf_label _ Hwf)|]. split; [by apply wf_label_NoDup|].
  split; [|split].
  - intros l Hl. by apply mentioned_label.
  - intros l. rewrite Hinit, list_elem_of_singleton. intros ->.
    by apply fresh_label.
  - intros l. rewrite Hfinal, elem_of_elements, elem_of_list_to_set, elem_of_app.
    intros [Hl|Hl].
    + apply fresh_label; [done|]. by apply Hopen.
    + by apply mentioned_label, return_mentioned.
Qed.

Definition progB : node :=
  FileAST [FuncDef "main" (Compound (Some
    [Assignment "=" (ID "x") (Constant "1"); Return (ID "x")]))].

Lemma labels_unique_and_closed_witness :
  ∃ e, generate_cfg progB = Ok e ∧
       edb_label (edb e) = ["l1"; "l2"] ∧
       NoDup (edb_label (edb e)) ∧
       (∀ l, l ∈ edb_final e → l ∈ edb_label (edb e)).
Proof.
  eassert (generate_cfg progB = Ok _) as E by (vm_compute; reflexivity).
  destruct (labels_unique_and_closed _ _ E) as (Hl & Hnd & _ & _ & Hf).
  eexists. split; [exact E|]. split; [by vm_compute|]. split; [exact Hnd|exact Hf].
Defined.

(** No label carries two right-hand-side shape tuples, nor two
    call-argument shape tuples: over [rhs_var], [rhs_const],
    [rhs_deref], [rhs_address] together a label occurs at most once, and
    likewise over [call_arg_var], [call_arg_const], [call_arg_deref]. *)
Theorem shape_tuples_exclusive ast e :
  generate_cfg ast = Ok e →
  ∀ l, (rhs_count l (edb e) ≤ 1)%nat ∧ (call_arg_count l (edb e) ≤ 1)%nat.
Proof.
  intros Hgen l.
  apply generate_cfg_wf in Hgen as (init & finals & _ & _ & Hwf & _).
  split; [apply (wf_rhs _ Hwf)|apply (wf_call_arg _ Hwf)].
Qed.

Lemma shape_tuples_exclusive_witness :
  ∃ e, generate_cfg progB = Ok e ∧
       (rhs_count "l1" (edb e) ≤ 1)%nat ∧ (call_arg_count "l1" (edb e) ≤ 1)%nat.
Proof.
  eassert (generate_cfg progB = Ok _) as E by (vm_compute; reflexivity).
  eexists. split; [exact E|]. exact (shape_tuples_exclusive _ _ E "l1").
Defined.

(** A label found in one right-hand-side shape relation is in none of
    the other three. *)
Theorem rhs_shapes_disjoint ast e l :
  generate_cfg ast = Ok e →
  (l ∈ (edb_rhs_var (edb e)).*2 →
     (l ∉ (edb_rhs_const (edb e)).*2) ∧ (l ∉ (edb_rhs_deref (edb e)).*2) ∧
     (l ∉ (edb_rhs_address (edb e)).*2)) ∧
  (l ∈ (edb_rhs_const (edb e)).*2 →
     (l ∉ (edb_rhs_deref (edb e)).*2) ∧ (l ∉ (edb_rhs_address (edb e)).*2)) ∧
  (l ∈ (edb_rhs_deref (edb e)).*2 → l ∉ (edb_rhs_address (edb e)).*2).
Proof.
  intros Hgen.
  apply generate_cfg_wf in Hgen as (init & finals & _ & _ & Hwf & _).
  pose proof (wf_rhs _ Hwf l) as Hle. unfold rhs_count in Hle.
  split; [|split]; intros Hin; repeat split; intros Hin';
    apply tagged_present in Hin; apply tagged_present in Hin'; lia.
Qed.

Lemma rhs_shapes_disjoint_witness :
  ∃ e, generate_cfg progB = Ok e ∧
       ("l1" ∈ (edb_rhs_const (edb e)).*2 →
        ("l1" ∉ (edb_rhs_deref (edb e)).*2) ∧
        ("l1" ∉ (edb_rhs_address (edb e)).*2)).
Proof.
  eassert (generate_cfg progB = Ok _) as E by (vm_compute; reflexivity).
  eexists. split; [exact E|].
  exact (proj1 (proj2 (rhs_shapes_disjoint _ _ "l1" E))).
Defined.

(** Returns are sinks and only condition blocks stay open with arcs:
    every return label is in [final] and no arc leaves it; [final] has
    no duplicates; a label of [final] that an arc leaves is a condition
    label. *)
Theorem final_sinks ast e :
  generate_cfg ast = Ok e →
  NoDup (edb_final e) ∧
  (∀ l, l ∈ edb_return (edb e) →
        l ∈ edb_final e ∧ (l ∉ (edb_flow (edb e)).*1)) ∧
  (∀ l, l ∈ edb_final e → l ∈ (edb_flow (edb e)).*1 →
        l ∈ edb_condition (edb e)).
Proof.
  intros Hgen.
  apply generate_cfg_wf in Hgen as (init & finals & _ & Hfinal & Hwf & _ & Hopen).
  rewrite Hfinal. split; [apply NoDup_elements|]. split.
  - intros l Hl. split; [|by apply (wf_return _ Hwf)].
    rewrite elem_of_elements, elem_of_list_to_set, elem_of_app. by right.
  - intros l. rewrite elem_of_elements, elem_of_list_to_set, elem_of_app.
    intros [Hl|Hl] Hsrc.
    + destruct (Hopen l Hl) as [_ [_ Hcond]]. by apply Hcond.
    + by destruct (wf_return _ Hwf l Hl).
Qed.

Lemma final_sinks_witness :
  ∃ e, generate_cfg progB = Ok e ∧
       edb_return (edb e) = ["l2"] ∧
       ("l2" ∈ edb_final e ∧ ("l2" ∉ (edb_flow (edb e)).*1)).
Proof.
  eassert (generate_cfg progB = Ok _) as E by (vm_compute; reflexivity).
  destruct (final_sinks _ _ E) as (_ & Hret & _).
  eexists. split; [exact E|]. split; [by vm_compute|].
  apply Hret. vm_compute. apply list_elem_of_here.
Defined.

(** Every tuple of [call] pairs a name listed in [function] with a
    label listed in [label]. *)
Theorem call_tuples ast e :
  generate_cfg ast = Ok e →
  ∀ name l, (name, l) ∈ edb_call (edb e) →
            name ∈ edb_function (edb e) ∧ l ∈ edb_label (edb e).
Proof.
  intros Hgen name l Hin.
  apply generate_cfg_wf in Hgen as (init & finals & _ & _ & Hwf & _).
  split; [exact (wf_call _ Hwf _ Hin)|].
  apply mentioned_label; [done|]. unfold mentioned. rewrite !elem_of_app.
  do 5 right. left. by apply (list_elem_of_fmap_2 snd _ (name, l)).
Qed.

Definition prog_call : node :=
  FileAST [FuncDef "main" (Compound (Some
    [FuncCall "f" (Some [ID "x"]); Return (Constant "0")]))].

Lemma call_tuples_witness :
  ∃ e, generate_cfg prog_call = Ok e ∧
       edb_call (edb e) = [("f", "l1")] ∧
       "f" ∈ edb_function (edb e) ∧ "l1" ∈ edb_label (edb e).
Proof.
  eassert (generate_cfg prog_call = Ok _) as E by (vm_compute; reflexivity).
  eexists. split; [exact E|]. split; [by vm_compute|].
  apply (call_tuples _ _ E). vm_compute. apply list_elem_of_here.
Defined.

(** ** Invariants of the relations alone *)

(** A property of the visitor that the block-making statements and the
    arcs keep is kept by every visit. *)
Section visit_invariant.
Variable I : StatementVisitor → Prop.
Hypothesis I_add_arcs : ∀ srcs d v, I v → I (add_arcs srcs d v).
Hypothesis I_condition_block : ∀ cond v l v',
  StatementVisitor.condition_block cond v = Ok (l, v') → I v → I v'.
Hypothesis I_FuncCall : ∀ name args v frag v',
  StatementVisitor.visit_FuncCall name args v = Ok (frag, v') → I v → I v'.
Hypothesis I_Assignment : ∀ op lvalue rvalue v frag v',
  StatementVisitor.visit_Assignment op lvalue rvalue v = Ok (frag, v') →
  I v → I v'.
Hypothesis I_Return : ∀ expr v frag v',
  StatementVisitor.visit_Return expr v = Ok (frag, v') → I v → I v'.

Definition keeps (n : node) : Prop :=
  ∀ v frag v', StatementVisitor.visit n v = Ok (frag, v') → I v → I v'.

Lemma Compound_tail_keeps tail :
  Forall keeps tail →
  ∀ prev v finals v',
    StatementVisitor.Compound_tail StatementVisitor.visit tail prev v =
      Ok (finals, v') →
    I v → I v'.
Proof.
  induction 1 as [|stmt tail Hstmt _ IH]; intros prev v finals v'; simpl.
  - by intros [= <- <-].
  - intros Hrun HI.
    apply bind_Ok in Hrun as ([ci cf] & v1 & Hvisit & Hrun).
    apply bind_Ok in Hrun as ([] & v2 & Harcs & Hrun).
    rewrite for_each_add_arc in Harcs. injection Harcs as <-.
    eapply IH; [exact Hrun|]. apply I_add_arcs. by eapply Hstmt.
Qed.

Lemma branch_keeps t tag cl F0 v1 F v2 :
  keeps t →
  (if negb (is_None t) then
     '(i, f) ← StatementVisitor.visit t;
     StatementVisitor._add_arc cl i tag;;
     mret (F0 ++ f)
   else mret (F0 ++ [cl])) v1 = Ok (F, v2) →
  I v1 → I v2.
Proof.
  intros Ht Hrun HI. destruct (is_None t); simpl in Hrun.
  - by injection Hrun as <- <-.
  - apply bind_Ok in Hrun as ([i f] & va & Hvisit & Hrun).
    apply bind_Ok in Hrun as ([] & vb & Harc & Hrun).
    rewrite _add_arc_eq in Harc. injection Harc as <-.
    injection Hrun as <- <-. apply I_add_arcs. by eapply Ht.
Qed.

Lemma visit_invariant n : keeps n.
Proof.
  induction n as
    [ | value | name | op expr | op l r | ext IHext | decl_name body IHbody
    | block_items IHitems | cond iftrue iffalse IHtrue IHfalse | name args
    | cond stmt IHstmt | op lvalue rvalue | expr | kind ]
    using node_stmt_ind; intros v frag v' Hrun HI;
    try discriminate Hrun.
  - simpl in Hrun. destruct ext as [|ext0 [|]]; try discriminate Hrun.
    apply Forall_cons in IHext as [Hext0 _].
    destruct ext0; try discriminate Hrun. by eapply Hext0.
  - simpl in Hrun. destruct (String.eqb decl_name "main"); [|discriminate Hrun].
    by eapply IHbody.
  - simpl in Hrun.
    destruct block_items as [[|head tail]|]; try discriminate Hrun.
    apply Forall_cons in IHitems as [Hhead Htail].
    apply bind_Ok in Hrun as ([hi hf] & v1 & Hvisit & Hrun).
    apply bind_Ok in Hrun as (finals & v2 & Htl & Hrun).
    injection Hrun as <- <-.
    eapply Compound_tail_keeps; [exact Htail|exact Htl|]. by eapply Hhead.
  - simpl in Hrun. destruct (is_None cond); [discriminate Hrun|].
    apply bind_Ok in Hrun as (cl & v1 & Hcond & Hrun).
    destruct (is_None iftrue && is_None iffalse); [discriminate Hrun|].
    apply bind_Ok in Hrun as (F1 & v2 & Htrue & Hrun).
    apply bind_Ok in Hrun as (F2 & v3 & Hfalse & Hrun).
    injection Hrun as <- <-.
    eapply (branch_keeps iffalse); [exact IHfalse|exact Hfalse|].
    eapply (branch_keeps iftrue _ _ []); [exact IHtrue|exact Htrue|].
    by eapply I_condition_block.
  - simpl in Hrun. by eapply I_FuncCall.
  - simpl in Hrun. destruct (is_None cond); [discriminate Hrun|].
    apply bind_Ok in Hrun as (cl & v1 & Hcond & Hrun).
    apply bind_Ok in Hrun as ([] & v2 & Hbody & Hrun).
    injection Hrun as <- <-.
    pose proof (I_condition_block _ _ _ _ Hcond HI) as HI1.
    destruct (is_None stmt); simpl in Hbody.
    + by injection Hbody as <-.
    + apply bind_Ok in Hbody as ([bi bf] & va & Hvisit & Hbody).
      apply bind_Ok in Hbody as ([] & vb & Harc & Hbody).
      rewrite _add_arc_eq in Harc. injection Harc as <-.
      rewrite for_each_add_arc in Hbody. injection Hbody as <-.
      do 2 apply I_add_arcs. by eapply IHstmt.
  - simpl in Hrun. by eapply I_Assignment.
  - simpl in Hrun. by eapply I_Return.
Qed.

End visit_invariant.

(** *** Each block has one kind *)

(** How often [l] is listed as an assignment, a condition, a return or
    a call. *)
Definition kind_count (l : string) (v : StatementVisitor) : nat :=
  tagged l (edb_assignment v) + tagged l (edb_condition v) +
  tagged l (edb_return v) + tagged l (edb_call v).*2.

Definition kinds_ok (v : StatementVisitor) : Prop :=
  ∀ l, kind_count l v = tagged l (edb_label v).

Ltac kinds_step HI :=
  let l := fresh "l" in
  intros l; specialize (HI l); unfold kind_count, alloc in *;
  state_norm; rewrite ?fmap_app; simpl; rewrite ?tagged_snoc; lia.

Lemma kinds_ok_visit n v frag v' :
  StatementVisitor.visit n v = Ok (frag, v') → kinds_ok v → kinds_ok v'.
Proof.
  apply visit_invariant; clear.
  - intros srcs d v HI l. exact (HI l).
  - intros cond v l v'. rewrite condition_block_eq.
    destruct (scan cond) as [e|e]; [|done]. cbv zeta. intros [= <- <-] HI.
    kinds_step HI.
  - intros name args v frag v'. rewrite visit_FuncCall_eq. cbv zeta.
    destruct args as [args'|].
    + destruct (args_state args' _ _) as [v1|e] eqn:E; [|done].
      apply args_state_eq in E. intros [= <- <-] HI.
      rewrite E. unfold sole, add_function.
      destruct args' as [|arg [|]]; case_bool_decide; kinds_step HI.
    + intros [= <- <-] HI. unfold add_function.
      case_bool_decide; kinds_step HI.
  - intros op lvalue rvalue v frag v'. rewrite visit_Assignment_eq.
    destruct (scan rvalue) as [r|e]; [|done]. cbv zeta.
    destruct (scan lvalue) as [l0|e]; [|done]. unfold defined_state.
    repeat case_bool_decide; try done; intros [= <- <-] HI; kinds_step HI.
  - intros expr v frag v'. rewrite visit_Return_eq.
    destruct (scan expr) as [e|e]; [|done]. cbv zeta. intros [= <- <-] HI.
    kinds_step HI.
Qed.

Lemma tagged_NoDup l xs : NoDup xs → l ∈ xs → tagged l xs = 1%nat.
Proof.
  induction 1 as [|x xs Hnin Hnd IH]; [by rewrite elem_of_nil|].
  rewrite elem_of_cons. unfold tagged in *. intros [->|Hin].
  - rewrite filter_cons_True by done. simpl.
    fold (tagged x xs). by rewrite tagged_absent.
  - rewrite filter_cons_False; [by apply IH|]. by intros ->.
Qed.

(** Every label of an accepted build is listed exactly once over
    [assignment], [condition], [return] and [call] together: each block
    has one kind, and nothing outside [label] has any. *)
Theorem label_has_one_kind ast e :
  generate_cfg ast = Ok e →
  (∀ l, l ∈ edb_label (edb e) → kind_count l (edb e) = 1%nat) ∧
  (∀ l, l ∉ edb_label (edb e) → kind_count l (edb e) = 0%nat).
Proof.
  intros Hgen.
  destruct (generate_cfg_wf _ _ Hgen) as (init & finals & _ & _ & Hwf & _).
  apply generate_cfg_Ok in Hgen as (init' & finals' & Hrun & _).
  assert (kinds_ok (edb e)) as HK.
  { eapply kinds_ok_visit; [exact Hrun|]. by intros l. }
  split; intros l Hl; rewrite (HK l).
  - apply tagged_NoDup; [by apply wf_label_NoDup|done].
  - by apply tagged_absent.
Qed.

Lemma label_has_one_kind_witness :
  ∃ e, generate_cfg progB = Ok e ∧ edb_label (edb e) = ["l1"; "l2"] ∧
       kind_count "l1" (edb e) = 1%nat ∧ kind_count "l2" (edb e) = 1%nat.
Proof.
  eassert (generate_cfg progB = Ok _) as E by (vm_compute; reflexivity).
  destruct (label_has_one_kind _ _ E) as [Hin _].
  eexists. split; [exact E|]. split; [by vm_compute|].
  split; apply Hin; vm_compute.
  - apply list_elem_of_here.
  - apply list_elem_of_further, list_elem_of_here.
Defined.

(** *** Names *)

Lemma variable_after_spec xs v :
  (NoDup (edb_variable v) → NoDup (variable_after xs v)) ∧
  (∀ x, x ∈ variable_after xs v ↔ x ∈ edb_variable v ∨ x ∈ xs).
Proof.
  unfold variable_after, add_variables. revert v.
  induction xs as [|a xs IH]; intros v; simpl.
  - split; [done|]. intros x. rewrite elem_of_nil. tauto.
  - case_bool_decide as Ha.
    + destruct (IH v) as [Hnd Hin]. split; [done|].
      intros x. rewrite Hin, elem_of_cons. split; [tauto|].
      intros [Hx|[->|Hx]]; auto.
    + destruct (IH (append_variable a v)) as [Hnd Hin]. simpl in Hnd, Hin.
      split.
      * intros Hv. apply Hnd. apply NoDup_app. split; [done|].
        split; [|apply NoDup_singleton].
        intros x Hx Hx'. apply list_elem_of_singleton in Hx' as ->. done.
      * intros x. rewrite Hin, elem_of_app, list_elem_of_singleton, elem_of_cons.
        tauto.
Qed.

(** What the name columns owe to [variable] and [function]. *)
Record names_ok (v : StatementVisitor) : Prop := mkNamesOk {
  names_variable : NoDup (edb_variable v);
  names_function : NoDup (edb_function v);
  names_used_deref : ∀ t, t ∈ edb_used_deref v → t ∈ edb_used v;
  names_used : ∀ t, t ∈ edb_used v → t.1 ∈ edb_variable v;
  names_defined : ∀ t,
    t ∈ edb_defined v ++ edb_defined_deref v → t.1 ∈ edb_variable v;
  names_rhs : ∀ t,
    t ∈ edb_rhs_var v ++ edb_rhs_deref v ++ edb_rhs_address v →
    t.1 ∈ edb_variable v;
  names_call_arg : ∀ t,
    t ∈ edb_call_arg_var v ++ edb_call_arg_deref v → t.1.2 ∈ edb_variable v;
  names_call_arg_function : ∀ t,
    t ∈ edb_call_arg_var v ++ edb_call_arg_const v ++ edb_call_arg_deref v →
    t.1.1 ∈ edb_function v
}.

Lemma names_ok_init : names_ok StatementVisitor_init.
Proof.
  split; simpl; try apply NoDup_nil_2; intros t Ht; by apply elem_of_nil in Ht.
Qed.

(** The fields [names_ok] reads. *)
Definition name_columns (v : StatementVisitor) :=
  (edb_variable v, edb_function v, edb_used v, edb_used_deref v,
   edb_defined v, edb_defined_deref v,
   (edb_rhs_var v, edb_rhs_deref v, edb_rhs_address v),
   (edb_call_arg_var v, edb_call_arg_const v, edb_call_arg_deref v)).

Lemma names_ok_ext v v' :
  name_columns v' = name_columns v → names_ok v → names_ok v'.
Proof.
  unfold name_columns. intros [= Hv Hf Hu Hud Hd Hdd Hrv Hrd Hra Hcv Hcc Hcd] [].
  split; rewrite ?Hv, ?Hf, ?Hu, ?Hud, ?Hd, ?Hdd, ?Hrv, ?Hrd, ?Hra, ?Hcv, ?Hcc, ?Hcd;
    done.
Qed.

Lemma names_ok_add_variables xs v :
  names_ok v → names_ok (add_variables xs v).
Proof.
  intros []. destruct (variable_after_spec xs v) as [Hnd Hin].
  rewrite add_variables_eq. split; simpl; try done; try (by apply Hnd);
    intros t Ht; apply Hin; left; auto.
Qed.

Lemma variable_add_variables xs v x :
  x ∈ edb_variable (add_variables xs v) ↔ x ∈ edb_variable v ∨ x ∈ xs.
Proof. apply (variable_after_spec xs v). Qed.

(** The reads of one scanned expression, recorded for [label]. *)
Definition reads_state (e : ExpressionVisitor) (label : string)
    (v : StatementVisitor) : StatementVisitor :=
  add_used (variables e) (deref_variables e) label
    (add_variables (elements (variables e) ++ elements (deref_variables e)) v).

Lemma names_ok_reads e label v : names_ok v → names_ok (reads_state e label v).
Proof.
  intros HI. apply (names_ok_add_variables
    (elements (variables e) ++ elements (deref_variables e))) in HI.
  unfold reads_state.
  pose proof (variable_add_variables
    (elements (variables e) ++ elements (deref_variables e)) v) as Hin.
  revert HI Hin. generalize (add_variables
    (elements (variables e) ++ elements (deref_variables e)) v).
  intros v1 [] Hin. unfold add_used. split; simpl; try done.
  - intros t. rewrite !elem_of_app, !list_elem_of_fmap.
    intros [Ht|(x & -> & Hx)]; [left; auto|right].
    exists x. split; [done|]. apply elem_of_elements.
    apply elem_of_elements in Hx. set_solver.
  - intros t. rewrite elem_of_app, list_elem_of_fmap.
    intros [Ht|(x & -> & Hx)]; [auto|]. simpl.
    apply Hin. right. apply elem_of_elements in Hx.
    rewrite elem_of_app, !elem_of_elements. set_solver.
Qed.

Lemma variable_reads e label v x :
  x ∈ edb_variable (reads_state e label v) ↔
  x ∈ edb_variable v ∨ x ∈ variables e ∨ x ∈ deref_variables e.
Proof.
  unfold reads_state, add_used. simpl.
  by rewrite variable_add_variables, elem_of_app, !elem_of_elements.
Qed.

(** What a shape test finds is among the reads of the scan. *)
Lemma shape_scan n e :
  scan n = Ok e →
  (truthy (is_var n) = true → the (is_var n) ∈ variables e) ∧
  (truthy (is_address n) = true → the (is_address n) ∈ variables e) ∧
  (truthy (is_deref n) = true → the (is_deref n) ∈ deref_variables e).
Proof.
  unfold scan.
  destruct n as [| |x|op operand| | | | | | | | | |]; simpl; try done.
  - intros [= <-]. simpl. repeat split; try done. intros _. set_solver.
  - destruct operand as [| |x| | | | | | | | | | |]; simpl;
      try (intros _; repeat split; done).
    destruct (String.eqb_spec op "*") as [->|Hne]; simpl.
    + destruct (negb (String.eqb x "")).
      * intros [= <-]. simpl. repeat split; try done. intros _. set_solver.
      * intros _. repeat split; done.
    + destruct (String.eqb op "&").
      * intros [= <-]. simpl. repeat split; try done. intros _. set_solver.
      * intros _. repeat split; done.
Qed.

Lemma names_ok_rhs_shape rvalue e label v :
  scan rvalue = Ok e →
  (∀ x, x ∈ variables e ∨ x ∈ deref_variables e → x ∈ edb_variable v) →
  names_ok v → names_ok (rhs_shape rvalue label v).
Proof.
  intros Hscan Hsub [Hv Hf Hud Hu Hd Hr Hc Hcf].
  destruct (shape_scan _ _ Hscan) as (Hvar & Haddr & Hderef).
  unfold rhs_shape, when.
  destruct (truthy (is_const rvalue)), (truthy (is_var rvalue)),
    (truthy (is_address rvalue)), (truthy (is_deref rvalue));
    split; simpl; try done;
    intros t; specialize (Hr t);
    rewrite ?elem_of_app, ?list_elem_of_singleton in *;
    intuition (subst; simpl; auto).
Qed.

Lemma names_ok_call_arg_shape name arg e label v :
  scan arg = Ok e →
  (∀ x, x ∈ variables e ∨ x ∈ deref_variables e → x ∈ edb_variable v) →
  name ∈ edb_function v →
  names_ok v → names_ok (call_arg_shape name arg label v).
Proof.
  intros Hscan Hsub Hfun [Hv Hf Hud Hu Hd Hr Hc Hcf].
  destruct (shape_scan _ _ Hscan) as (Hvar & _ & Hderef).
  unfold call_arg_shape, when.
  destruct (truthy (is_const arg)), (truthy (is_var arg)),
    (truthy (is_deref arg));
    split; simpl; try done;
    intros t; specialize (Hc t); specialize (Hcf t);
    rewrite ?elem_of_app, ?list_elem_of_singleton in *;
    intuition (subst; simpl; auto).
Qed.

Lemma sole_element (X : gset string) :
  size X = 1%nat → the (head (elements X)) ∈ X.
Proof.
  intros Hsize. apply size_1_elem_of in Hsize as (x & Hx).
  apply leibniz_equiv in Hx. subst X. rewrite elements_singleton. simpl.
  set_solver.
Qed.

Lemma names_ok_add_function name v :
  names_ok v →
  names_ok (add_function name v) ∧ name ∈ edb_function (add_function name v).
Proof.
  intros []. unfold add_function. case_bool_decide as Hin.
  - split; [by split|done].
  - split.
    + split; simpl; try done.
      * apply NoDup_app. split; [done|]. split; [|apply NoDup_singleton].
        intros x Hx Hx'. by apply list_elem_of_singleton in Hx' as ->.
      * intros t Ht. rewrite elem_of_app. left. auto.
    + simpl. rewrite elem_of_app, list_elem_of_singleton. by right.
Qed.

Lemma args_state_names args label v v' :
  args_state args label v = Ok v' →
  names_ok v → names_ok v' ∧ edb_function v' = edb_function v.
Proof.
  revert v. induction args as [|arg rest IH]; intros v; simpl.
  - by intros [= <-].
  - destruct (scan arg) as [r|e]; [|done]. intros Hrun HI.
    fold (reads_state r label v) in Hrun.
    apply IH in Hrun as [HI' Hf]; [|by apply names_ok_reads].
    split; [done|]. rewrite Hf. unfold reads_state. by state_norm.
Qed.

Lemma names_ok_append_defined x label v :
  x ∈ edb_variable v → names_ok v → names_ok (append_defined (x, label) v).
Proof.
  intros Hx [Hv Hf Hud Hu Hd Hr Hc Hcf]. split; simpl; try done.
  intros t. specialize (Hd t).
  rewrite ?elem_of_app, ?list_elem_of_singleton in *.
  intuition (subst; simpl; auto).
Qed.

Lemma names_ok_append_defined_deref x label v :
  x ∈ edb_variable v → names_ok v →
  names_ok (append_defined_deref (x, label) v).
Proof.
  intros Hx [Hv Hf Hud Hu Hd Hr Hc Hcf]. split; simpl; try done.
  intros t. specialize (Hd t).
  rewrite ?elem_of_app, ?list_elem_of_singleton in *.
  intuition (subst; simpl; auto).
Qed.

Lemma names_ok_visit n v frag v' :
  StatementVisitor.visit n v = Ok (frag, v') → names_ok v → names_ok v'.
Proof.
  apply visit_invariant; clear.
  - intros srcs d v. by apply names_ok_ext.
  - intros cond v l v'. rewrite condition_block_eq.
    destruct (scan cond) as [e|e]; [|done]. cbv zeta. intros [= <- <-] HI.
    apply (names_ok_reads e). revert HI. by apply names_ok_ext.
  - intros name args v frag v'. rewrite visit_FuncCall_eq. cbv zeta.
    intros Hrun HI.
    assert (names_ok (alloc v)) as HIa by (revert HI; by apply names_ok_ext).
    destruct (names_ok_add_function name _ HIa) as [HIf Hin].
    set (label := label_of (availabe_label_index v)) in *.
    set (v0 := append_call _ _) in Hrun.
    assert (names_ok v0) as HI0 by (revert HIf; by apply names_ok_ext).
    assert (name ∈ edb_function v0) as Hin0 by exact Hin.
    clearbody v0.
    destruct args as [args'|]; [|by injection Hrun as <- <-].
    destruct (args_state args' label v0) as [v1|err] eqn:E; [|done].
    injection Hrun as <- <-.
    destruct (args_state_names _ _ _ _ E HI0) as [HI1 Hf1].
    destruct args' as [|arg [|arg' rest]]; simpl; try done.
    simpl in E. destruct (scan arg) as [r|err] eqn:Hscan; [|done].
    injection E as <-. fold (reads_state r label v0) in *.
    apply (names_ok_call_arg_shape name arg r); try done.
    + intros x Hx. apply variable_reads. by right.
    + by rewrite Hf1.
  - intros op lvalue rvalue v frag v'. rewrite visit_Assignment_eq.
    destruct (scan rvalue) as [r|e] eqn:Hr; [|done]. cbv zeta.
    destruct (scan lvalue) as [l0|e] eqn:Hl; [|done].
    fold (alloc v). set (label := label_of (availabe_label_index v)).
    fold (reads_state r label (alloc v)).
    intros Hrun HI.
    assert (names_ok (rhs_shape rvalue label (reads_state r label (alloc v))))
      as HI1.
    { apply (names_ok_rhs_shape rvalue r); [done| |].
      - intros x Hx. apply variable_reads. by right.
      - apply names_ok_reads. revert HI. by apply names_ok_ext. }
    revert Hrun HI1.
    generalize (rhs_shape rvalue label (reads_state r label (alloc v))).
    intros v1 Hrun HI1.
    pose proof (names_ok_add_variables
      (elements (variables l0) ++ elements (deref_variables l0)) _ HI1) as HI2.
    pose proof (variable_add_variables
      (elements (variables l0) ++ elements (deref_variables l0)) v1) as Hin.
    revert Hrun HI2 Hin.
    generalize (add_variables
      (elements (variables l0) ++ elements (deref_variables l0)) v1).
    intros v2 Hrun HI2 Hin. unfold defined_state in Hrun.
    case_bool_decide as H1; [|case_bool_decide as H2; [|done]];
      injection Hrun as <- <-.
    + destruct H1 as [H1 _]. apply sole_element in H1.
      assert (names_ok (append_defined
                (the (head (elements (variables l0))), label) v2)) as HI3.
      { apply names_ok_append_defined; [|done]. apply Hin. right.
        rewrite elem_of_app, !elem_of_elements. by left. }
      revert HI3. by apply names_ok_ext.
    + destruct H2 as [_ H2]. apply sole_element in H2.
      assert (names_ok (append_defined_deref
                (the (head (elements (deref_variables l0))), label) v2)) as HI3.
      { apply names_ok_append_defined_deref; [|done]. apply Hin. right.
        rewrite elem_of_app, !elem_of_elements. by right. }
      revert HI3. by apply names_ok_ext.
  - intros expr v frag v'. rewrite visit_Return_eq.
    destruct (scan expr) as [e|e]; [|done]. cbv zeta. intros [= <- <-] HI.
    fold (alloc v). fold (reads_state e (label_of (availabe_label_index v)) (alloc v)).
    assert (names_ok (reads_state e (label_of (availabe_label_index v)) (alloc v)))
      as HI1.
    { apply names_ok_reads. revert HI. by apply names_ok_ext. }
    revert HI1. by apply names_ok_ext.
Qed.

Lemma generate_cfg_names ast e : generate_cfg ast = Ok e → names_ok (edb e).
Proof.
  intros Hgen. apply generate_cfg_Ok in Hgen as (init & finals & Hrun & _).
  eapply names_ok_visit; [exact Hrun|apply names_ok_init].
Qed.

(** After an accepted build [variable] and [function] list each name
    once, every dereferenced read is also recorded as a read, and every
    name read is listed in [variable]. *)
Theorem reads_recorded ast e :
  generate_cfg ast = Ok e →
  NoDup (edb_variable (edb e)) ∧
  NoDup (edb_function (edb e)) ∧
  (∀ x l, (x, l) ∈ edb_used_deref (edb e) → (x, l) ∈ edb_used (edb e)) ∧
  (∀ x l, (x, l) ∈ edb_used (edb e) → x ∈ edb_variable (edb e)).
Proof.
  intros Hgen. destruct (generate_cfg_names _ _ Hgen) as [Hv Hf Hud Hu _ _ _ _].
  split; [done|]. split; [done|]. split.
  - intros x l. apply Hud.
  - intros x l Hin. apply (Hu _ Hin).
Qed.

Definition prog_deref : node :=
  FileAST [FuncDef "main" (Compound (Some
    [Assignment "=" (UnaryOp "*" (ID "p")) (BinaryOp "+" (UnaryOp "*" (ID "q")) (ID "x"));
     Return (UnaryOp "&" (ID "x"))]))].

Lemma reads_recorded_witness :
  ∃ e, generate_cfg prog_deref = Ok e ∧
       edb_used_deref (edb e) = [("q", "l1")] ∧
       ("q", "l1") ∈ edb_used (edb e) ∧ "q" ∈ edb_variable (edb e).
Proof.
  eassert (generate_cfg prog_deref = Ok _) as E by (vm_compute; reflexivity).
  destruct (reads_recorded _ _ E) as (_ & _ & Hud & Hu).
  eexists. split; [exact E|]. split; [by vm_compute|]. split.
  - apply Hud. vm_compute. apply list_elem_of_here.
  - apply (Hu "q" "l1"), Hud. vm_compute. apply list_elem_of_here.
Defined.

(** After an accepted build every name that is defined or carries a
    variable shape tag ([defined], [defined_deref], [rhs_var],
    [rhs_deref], [rhs_address], [call_arg_var], [call_arg_deref]) is
    listed in [variable], and the function of every [call_arg_*] tuple
    is listed in [function]. *)
Theorem names_listed ast e :
  generate_cfg ast = Ok e →
  (∀ x l, (x, l) ∈ edb_defined (edb e) ∨ (x, l) ∈ edb_defined_deref (edb e) →
          x ∈ edb_variable (edb e)) ∧
  (∀ x l, (x, l) ∈ edb_rhs_var (edb e) ∨ (x, l) ∈ edb_rhs_deref (edb e) ∨
          (x, l) ∈ edb_rhs_address (edb e) →
          x ∈ edb_variable (edb e)) ∧
  (∀ f x l, (f, x, l) ∈ edb_call_arg_var (edb e) ∨
            (f, x, l) ∈ edb_call_arg_deref (edb e) →
            x ∈ edb_variable (edb e)) ∧
  (∀ f x l, (f, x, l) ∈ edb_call_arg_var (edb e) ∨
            (f, x, l) ∈ edb_call_arg_const (edb e) ∨
            (f, x, l) ∈ edb_call_arg_deref (edb e) →
            f ∈ edb_function (edb e)).
Proof.
  intros Hgen. destruct (generate_cfg_names _ _ Hgen) as [_ _ _ _ Hd Hr Hc Hcf].
  repeat split.
  - intros x l Hin. apply (Hd (x, l)). rewrite elem_of_app. tauto.
  - intros x l Hin. apply (Hr (x, l)). rewrite !elem_of_app. tauto.
  - intros f x l Hin. apply (Hc (f, x, l)). rewrite elem_of_app. tauto.
  - intros f x l Hin. apply (Hcf (f, x, l)). rewrite !elem_of_app. tauto.
Qed.

Lemma names_listed_witness :
  ∃ e, generate_cfg prog_deref = Ok e ∧
       edb_defined_deref (edb e) = [("p", "l1")] ∧
       "p" ∈ edb_variable (edb e).
Proof.
  eassert (generate_cfg prog_deref = Ok _) as E by (vm_compute; reflexivity).
  destruct (names_listed _ _ E) as (Hd & _).
  eexists. split; [exact E|]. split; [by vm_compute|].
  apply (Hd "p" "l1"). right. vm_compute. apply list_elem_of_here.
Defined.

(** ** Labels follow the walk *)

(** The elementary blocks of a statement: one for each assignment,
    call and return, and one for the condition of each conditional and
    loop. *)
Fixpoint blocks (n : node) : nat :=
  match n with
  | FileAST ext =>
      match ext with
      | [ext0] => blocks ext0
      | _ => 0
      end
  | FuncDef _ body => blocks body
  | Compound (Some block_items) =>
      (fix sum (items : list node) : nat :=
         match items with
         | [] => 0
         | stmt :: items' => blocks stmt + sum items'
         end) block_items
  | If _ iftrue iffalse => 1 + blocks iftrue + blocks iffalse
  | While _ stmt => 1 + blocks stmt
  | FuncCall _ _ | Assignment _ _ _ | Return _ => 1
  | _ => 0
  end.

Definition blocks_of (items : list node) : nat :=
  foldr (λ stmt k, blocks stmt + k) 0 items.

Lemma blocks_Compound items : blocks (Compound (Some items)) = blocks_of items.
Proof. simpl. induction items as [|stmt items IH]; [done|]. simpl. by rewrite IH. Qed.

(** A visit that returns enters at the label it allocates first and
    moves the counter by the number of blocks. *)
Definition entry_ok (n : node) : Prop :=
  ∀ v frag v',
    StatementVisitor.visit n v = Ok (frag, v') →
    frag.1 = label_of (availabe_label_index v) ∧
    availabe_label_index v' = (availabe_label_index v + blocks n)%nat.

Lemma Compound_tail_index tail :
  Forall entry_ok tail →
  ∀ prev v finals v',
    StatementVisitor.Compound_tail StatementVisitor.visit tail prev v =
      Ok (finals, v') →
    availabe_label_index v' = (availabe_label_index v + blocks_of tail)%nat.
Proof.
  induction 1 as [|stmt tail Hstmt _ IH]; intros prev v finals v'; simpl.
  - intros [= <- <-]. lia.
  - intros Hrun.
    apply bind_Ok in Hrun as ([ci cf] & v1 & Hvisit & Hrun).
    apply bind_Ok in Hrun as ([] & v2 & Harcs & Hrun).
    rewrite for_each_add_arc in Harcs. injection Harcs as <-.
    apply IH in Hrun. rewrite index_add_arcs in Hrun.
    destruct (Hstmt _ _ _ Hvisit) as [_ Hidx]. lia.
Qed.

Lemma branch_index t tag cl F0 v1 F v2 :
  entry_ok t →
  (if negb (is_None t) then
     '(i, f) ← StatementVisitor.visit t;
     StatementVisitor._add_arc cl i tag;;
     mret (F0 ++ f)
   else mret (F0 ++ [cl])) v1 = Ok (F, v2) →
  availabe_label_index v2 = (availabe_label_index v1 + blocks t)%nat.
Proof.
  intros Ht Hrun. destruct (is_None t) eqn:Hnone; simpl in Hrun.
  - injection Hrun as <- <-. destruct t; try discriminate Hnone. simpl. lia.
  - apply bind_Ok in Hrun as ([i f] & va & Hvisit & Hrun).
    apply bind_Ok in Hrun as ([] & vb & Harc & Hrun).
    rewrite _add_arc_eq in Harc. injection Harc as <-.
    injection Hrun as <- <-. rewrite index_add_arcs.
    by destruct (Ht _ _ _ Hvisit).
Qed.

Lemma visit_entry n : entry_ok n.
Proof.
  induction n as
    [ | value | name | op expr | op l r | ext IHext | decl_name body IHbody
    | block_items IHitems | cond iftrue iffalse IHtrue IHfalse | name args
    | cond stmt IHstmt | op lvalue rvalue | expr | kind ]
    using node_stmt_ind; intros v frag v' Hrun;
    try discriminate Hrun.
  - simpl in Hrun. destruct ext as [|ext0 [|]]; try discriminate Hrun.
    apply Forall_cons in IHext as [Hext0 _].
    destruct ext0; try discriminate Hrun. by apply Hext0.
  - simpl in Hrun. destruct (String.eqb decl_name "main"); [|discriminate Hrun].
    by apply IHbody.
  - destruct block_items as [[|head tail]|]; try discriminate Hrun.
    rewrite blocks_Compound. simpl in Hrun.
    apply Forall_cons in IHitems as [Hhead Htail].
    apply bind_Ok in Hrun as ([hi hf] & v1 & Hvisit & Hrun).
    apply bind_Ok in Hrun as (finals & v2 & Htl & Hrun).
    injection Hrun as <- <-.
    destruct (Hhead _ _ _ Hvisit) as [Hfst Hidx].
    apply (Compound_tail_index _ Htail) in Htl. simpl in *. split; [done|lia].
  - simpl in Hrun. destruct (is_None cond); [discriminate Hrun|].
    apply bind_Ok in Hrun as (cl & v1 & Hcond & Hrun).
    destruct (is_None iftrue && is_None iffalse); [discriminate Hrun|].
    apply bind_Ok in Hrun as (F1 & v2 & Htrue & Hrun).
    apply bind_Ok in Hrun as (F2 & v3 & Hfalse & Hrun).
    injection Hrun as <- <-.
    destruct (condition_block_leaf _ _ _ _ Hcond) as (-> & Hleaf & _).
    apply leaf_index in Hleaf.
    apply (branch_index iftrue _ _ [] _ _ _ IHtrue) in Htrue.
    apply (branch_index iffalse _ _ _ _ _ _ IHfalse) in Hfalse.
    simpl. split; [done|lia].
  - simpl in Hrun.
    destruct (visit_FuncCall_leaf _ _ _ _ _ Hrun) as (-> & Hleaf & _).
    apply leaf_index in Hleaf. by simpl.
  - simpl in Hrun. destruct (is_None cond); [discriminate Hrun|].
    apply bind_Ok in Hrun as (cl & v1 & Hcond & Hrun).
    apply bind_Ok in Hrun as ([] & v2 & Hbody & Hrun).
    injection Hrun as <- <-.
    destruct (condition_block_leaf _ _ _ _ Hcond) as (-> & Hleaf & _).
    apply leaf_index in Hleaf. simpl. split; [done|].
    destruct (is_None stmt) eqn:Hnone; simpl in Hbody.
    + injection Hbody as <-. destruct stmt; try discriminate Hnone. simpl. lia.
    + apply bind_Ok in Hbody as ([bi bf] & va & Hvisit & Hbody).
      apply bind_Ok in Hbody as ([] & vb & Harc & Hbody).
      rewrite _add_arc_eq in Harc. injection Harc as <-.
      rewrite for_each_add_arc in Hbody. injection Hbody as <-.
      rewrite !index_add_arcs. destruct (IHstmt _ _ _ Hvisit) as [_ Hidx]. lia.
  - simpl in Hrun.
    destruct (visit_Assignment_leaf _ _ _ _ _ _ Hrun) as (-> & Hleaf & _).
    apply leaf_index in Hleaf. by simpl.
  - simpl in Hrun.
    destruct (visit_Return_leaf _ _ _ _ Hrun) as (-> & Hleaf).
    apply leaf_index in Hleaf. by simpl.
Qed.

(** The entry of every accepted program is [l1], and the program has
    as many labels as it has blocks. *)
Theorem init_is_first_label ast e :
  generate_cfg ast = Ok e →
  edb_init e = ["l1"] ∧ length (edb_label (edb e)) = blocks ast.
Proof.
  intros Hgen.
  destruct (generate_cfg_wf _ _ Hgen) as (init0 & finals0 & _ & _ & Hwf & _).
  apply generate_cfg_Ok in Hgen as (init & finals & Hrun & Hinit & _).
  destruct (visit_entry _ _ _ _ Hrun) as [Hfst Hidx]. simpl in Hfst, Hidx.
  split; [by rewrite Hinit, Hfst|].
  rewrite (wf_label _ Hwf), length_fmap, length_seq, Hidx. lia.
Qed.

Lemma init_is_first_label_witness :
  ∃ e, generate_cfg prog_deref = Ok e ∧
       edb_init e = ["l1"] ∧ length (edb_label (edb e)) = 2%nat.
Proof.
  eassert (generate_cfg prog_deref = Ok _) as E by (vm_compute; reflexivity).
  eexists. split; [exact E|]. exact (init_is_first_label _ _ E).
Defined.

(** ** The read-scan *)

(** The expressions made of constants, identifiers, unary and binary
    operations only. *)
Fixpoint supported (n : node) : bool :=
  match n with
  | Constant _ | ID _ => true
  | UnaryOp _ expr => supported expr
  | BinaryOp _ l r => supported l && supported r
  | _ => false
  end.

Lemma visit_UnaryOp_eq op expr self :
  ExpressionVisitor.visit (UnaryOp op expr) self =
  if truthy (is_deref (UnaryOp op expr)) then
    Ok {| variables := variables self;
          deref_variables :=
            deref_variables self ∪ {[the (is_deref (UnaryOp op expr))]} |}
  else ExpressionVisitor.visit expr self.
Proof. reflexivity. Qed.

Lemma scan_supported n self :
  is_Ok (ExpressionVisitor.visit n self) = supported n.
Proof.
  revert self.
  induction n as [| | |op expr IH|op l IHl r IHr| | | | | | | | |];
    intros self; try done.
  - rewrite visit_UnaryOp_eq.
    destruct (truthy (is_deref (UnaryOp op expr))) eqn:Hd; [|apply IH].
    simpl in Hd. destruct expr; try discriminate Hd. done.
  - simpl. specialize (IHl self).
    destruct (ExpressionVisitor.visit l self) as [self'|e]; simpl in IHl;
      rewrite <- IHl; [apply IHr|done].
Qed.

(** The scan adds the reads of the expression to what was collected
    before, whatever that was. *)
Lemma scan_accumulates n self self' :
  ExpressionVisitor.visit n self = Ok self' →
  ∃ e, scan n = Ok e ∧
       variables self' = variables self ∪ variables e ∧
       deref_variables self' = deref_variables self ∪ deref_variables e.
Proof.
  unfold scan. revert self self'.
  induction n as [| | |op expr IH|op l IHl r IHr| | | | | | | | |];
    intros self self'; try done.
  - intros [= <-]. eexists. split; [done|]. simpl. set_solver.
  - intros [= <-]. eexists. split; [done|]. simpl. set_solver.
  - rewrite !visit_UnaryOp_eq.
    destruct (truthy (is_deref (UnaryOp op expr))); [|apply IH].
    intros [= <-]. eexists. split; [done|]. simpl. set_solver.
  - simpl.
    destruct (ExpressionVisitor.visit l self) as [self1|e] eqn:El; [|done].
    intros Er. destruct (IHl _ _ El) as (el & Hl & Hlv & Hld).
    destruct (IHr _ _ Er) as (er & Hr & Hrv & Hrd).
    rewrite Hl.
    destruct (ExpressionVisitor.visit r el) as [e2|e] eqn:Er2.
    + destruct (IHr _ _ Er2) as (er' & Hr' & Hrv' & Hrd').
      rewrite Hr in Hr'. injection Hr' as <-.
      eexists. split; [done|]. rewrite Hrv, Hrd, Hlv, Hld, Hrv', Hrd'.
      set_solver.
    + pose proof (scan_supported r el) as H1.
      pose proof (scan_supported r self1) as H2.
      rewrite Er2 in H1. rewrite Er in H2. simpl in *. congruence.
Qed.

(** The scan accepts exactly the expressions built from constants,
    identifiers, unary and binary operations; and the reads of a binary
    operation are those of its operands together, the operator playing
    no part. *)
Theorem scan_binary_reads :
  (∀ n, is_Ok (scan n) = supported n) ∧
  (∀ op l r el er,
     scan l = Ok el → scan r = Ok er →
     ∃ e, scan (BinaryOp op l r) = Ok e ∧
          variables e = variables el ∪ variables er ∧
          deref_variables e = deref_variables el ∪ deref_variables er).
Proof.
  split; [intros n; apply scan_supported|].
  intros op l r el er Hl Hr. unfold scan in *. simpl. rewrite Hl.
  destruct (ExpressionVisitor.visit r el) as [e|err] eqn:E.
  - destruct (scan_accumulates _ _ _ E) as (er' & Hr' & Hv & Hd).
    unfold scan in Hr'. rewrite Hr in Hr'. injection Hr' as <-.
    by exists e.
  - pose proof (scan_supported r el) as H1.
    pose proof (scan_supported r ExpressionVisitor_init) as H2.
    rewrite E in H1. rewrite Hr in H2. simpl in *. congruence.
Qed.

Lemma scan_binary_reads_witness :
  ∃ e, scan (BinaryOp "+" (ID "x") (UnaryOp "*" (ID "p"))) = Ok e ∧
       variables e = {["x"]} ∧ deref_variables e = {["p"]}.
Proof.
  destruct (proj2 scan_binary_reads "+" (ID "x") (UnaryOp "*" (ID "p")) _ _
              eq_refl eq_refl) as (e & He & Hv & Hd).
  exists e. split; [exact He|]. rewrite Hv, Hd. split; by vm_compute.
Defined.

(** ** Straight-line code *)

(** The statements that make one block with one open exit. *)
Definition simple (n : node) : bool :=
  match n with
  | Assignment _ _ _ | FuncCall _ _ => true
  | _ => false
  end.

Lemma simple_visit n v frag v' :
  simple n = true →
  StatementVisitor.visit n v = Ok (frag, v') →
  frag = (label_of (availabe_label_index v),
          [label_of (availabe_label_index v)]) ∧
  availabe_label_index v' = (availabe_label_index v + 1)%nat ∧
  edb_flow v' = edb_flow v.
Proof.
  destruct n; try discriminate; intros _ Hrun; simpl in Hrun.
  - destruct (visit_FuncCall_leaf _ _ _ _ _ Hrun) as (-> & Hleaf & _).
    split; [done|]. split; [by apply leaf_index|by apply leaf_flow].
  - destruct (visit_Assignment_leaf _ _ _ _ _ _ Hrun) as (-> & Hleaf & _).
    split; [done|]. split; [by apply leaf_index|by apply leaf_flow].
Qed.

(** The arcs of a chain of [k] blocks that starts at counter value [i]. *)
Definition chain (i k : nat) : list (string * string) :=
  (λ j, (label_of j, label_of (j + 1))) <$> seq i k.

Lemma Compound_tail_chain tail :
  Forall (λ n, simple n = true) tail →
  ∀ p prev v finals v',
    StatementVisitor.Compound_tail StatementVisitor.visit tail prev v =
      Ok (finals, v') →
    prev = [label_of p] →
    availabe_label_index v = (p + 1)%nat →
    finals = [label_of (p + length tail)] ∧
    availabe_label_index v' = (p + 1 + length tail)%nat ∧
    edb_flow v' = edb_flow v ++ chain p (length tail).
Proof.
  induction 1 as [|stmt tail Hstmt _ IH]; intros p prev v finals v'; simpl.
  - intros [= <- <-] -> Hp. rewrite Nat.add_0_r, app_nil_r. split; [done|].
    split; [lia|done].
  - intros Hrun Hprev Hp.
    apply bind_Ok in Hrun as ([ci cf] & v1 & Hvisit & Hrun).
    apply bind_Ok in Hrun as ([] & v2 & Harcs & Hrun).
    rewrite for_each_add_arc in Harcs. injection Harcs as <-.
    destruct (simple_visit _ _ _ _ Hstmt Hvisit) as ([= -> ->] & Hidx & Hflow).
    apply (IH (p + 1)%nat) in Hrun as (-> & Hidx' & Hflow').
    + split; [f_equal; f_equal; lia|]. split; [lia|].
      rewrite Hflow', Hprev. unfold add_arcs, chain. simpl.
      rewrite Hflow, Hp, <- app_assoc. simpl. do 3 f_equal.
      by rewrite Nat.add_1_r.
    + by rewrite Hp.
    + rewrite index_add_arcs. lia.
Qed.

(** A block of [k] assignments and calls, [k] at least one, is laid out
    as a chain: it enters at the first label it allocates, leaves its
    last label open, and adds exactly the arcs from each label to the
    next. *)
Theorem Compound_straight_line items v frag v' :
  Forall (λ n, simple n = true) items →
  StatementVisitor.visit (Compound (Some items)) v = Ok (frag, v') →
  let i := availabe_label_index v in
  let k := length items in
  (1 ≤ k)%nat ∧
  frag = (label_of i, [label_of (i + k - 1)]) ∧
  availabe_label_index v' = (i + k)%nat ∧
  edb_flow v' = edb_flow v ++ chain i (k - 1).
Proof.
  intros Hsimple Hrun. destruct items as [|head tail]; [discriminate Hrun|].
  apply Forall_cons in Hsimple as [Hhead Htail]. simpl in Hrun.
  apply bind_Ok in Hrun as ([hi hf] & v1 & Hvisit & Hrun).
  apply bind_Ok in Hrun as (finals & v2 & Htl & Hrun).
  injection Hrun as <- <-.
  destruct (simple_visit _ _ _ _ Hhead Hvisit) as ([= -> ->] & Hidx & Hflow).
  apply (Compound_tail_chain _ Htail (availabe_label_index v))
    in Htl as (-> & Hidx' & Hflow'); [|done|lia].
  cbv zeta. simpl length. split; [lia|]. split; [|split].
  - do 3 f_equal. lia.
  - lia.
  - rewrite Hflow', Hflow. do 2 f_equal. lia.
Qed.

Definition straight_line : list node :=
  [Assignment "=" (ID "x") (Constant "1");
   FuncCall "f" (Some [ID "x"]);
   Assignment "=" (ID "y") (ID "x")].

Lemma Compound_straight_line_witness :
  ∃ v',
    StatementVisitor.visit (Compound (Some straight_line))
      StatementVisitor_init = Ok (("l1", ["l3"]), v') ∧
    edb_flow v' = [("l1", "l2"); ("l2", "l3")].
Proof.
  eassert (StatementVisitor.visit (Compound (Some straight_line))
             StatementVisitor_init = Ok (_, _)) as E
    by (vm_compute; reflexivity).
  assert (Forall (λ n, simple n = true) straight_line) as Hs
    by (repeat constructor).
  destruct (Compound_straight_line _ _ _ _ Hs E) as (_ & _ & _ & Hflow).
  eexists. split; [exact E|]. exact Hflow.
Defined.

(** ** The programs the analyser accepts *)

(** The target of an assignment names exactly one variable, read
    directly or through a dereference. *)
Definition lvalue_ok (n : node) : bool :=
  match scan n with
  | Ok l =>
      bool_decide (size (variables l) = 1 ∧ size (deref_variables l) = 0) ||
      bool_decide (size (variables l) = 0 ∧ size (deref_variables l) = 1)
  | Raise _ => false
  end.

Fixpoint accepted (n : node) : bool :=
  match n with
  | FileAST [FuncDef decl_name body] =>
      String.eqb decl_name "main" && accepted body
  | FuncDef decl_name body => String.eqb decl_name "main" && accepted body
  | Compound (Some (head :: tail)) => accepted head && forallb accepted tail
  | If cond iftrue iffalse =>
      supported cond && negb (is_None iftrue && is_None iffalse) &&
      (is_None iftrue || accepted iftrue) &&
      (is_None iffalse || accepted iffalse)
  | FuncCall _ (Some args) => forallb supported args
  | FuncCall _ None => true
  | While cond stmt => supported cond && (is_None stmt || accepted stmt)
  | Assignment _ lvalue rvalue => supported rvalue && lvalue_ok lvalue
  | Return expr => supported expr
  | _ => false
  end.

Lemma is_Ok_bind {A B} (m : M A) (f : A → M B) v :
  is_Ok ((m ≫= f) v) =
  match m v with
  | Ok (a, v1) => is_Ok (f a v1)
  | Raise _ => false
  end.
Proof. unfold mbind, visitor_bind. by destruct (m v) as [[a v1]|e]. Qed.

Lemma is_Ok_scan n : is_Ok (scan n) = supported n.
Proof. apply scan_supported. Qed.

Lemma args_state_accepts args label v :
  is_Ok (args_state args label v) = forallb supported args.
Proof.
  revert v. induction args as [|arg rest IH]; intros v; simpl; [done|].
  rewrite <- is_Ok_scan. destruct (scan arg) as [r|e]; [apply IH|done].
Qed.

Definition accepts (n : node) : Prop :=
  ∀ v, is_Ok (StatementVisitor.visit n v) = accepted n.

Lemma Compound_tail_accepts tail :
  Forall accepts tail →
  ∀ prev v,
    is_Ok (StatementVisitor.Compound_tail StatementVisitor.visit tail prev v) =
    forallb accepted tail.
Proof.
  induction 1 as [|stmt tail Hstmt _ IH]; intros prev v; simpl; [done|].
  rewrite is_Ok_bind, <- (Hstmt v).
  destruct (StatementVisitor.visit stmt v) as [[[ci cf] v1]|e]; [|done].
  rewrite is_Ok_bind, for_each_add_arc. apply IH.
Qed.

Lemma branch_accepts t tag cl F0 v :
  accepts t →
  is_Ok ((if negb (is_None t) then
            '(t_init, t_finals) ← StatementVisitor.visit t;
            StatementVisitor._add_arc cl t_init tag ;;
            mret (F0 ++ t_finals)
          else mret (F0 ++ [cl])) v) =
  (is_None t || accepted t).
Proof.
  intros Ht. destruct (is_None t); [done|]. simpl.
  rewrite is_Ok_bind, <- (Ht v).
  by destruct (StatementVisitor.visit t v) as [[[ti tf] v1]|e].
Qed.

Lemma body_accepts stmt cl v :
  accepts stmt →
  is_Ok ((if negb (is_None stmt) then
            '(body_init, body_finals) ← StatementVisitor.visit stmt;
            StatementVisitor._add_arc cl body_init (Some "true") ;;
            for_each body_finals
              (λ final, StatementVisitor._add_arc final cl None)
          else mret tt) v) =
  (is_None stmt || accepted stmt).
Proof.
  intros Hstmt. destruct (is_None stmt); [done|]. cbn [negb orb].
  rewrite is_Ok_bind, <- (Hstmt v).
  destruct (StatementVisitor.visit stmt v) as [[[bi bf] v1]|e]; [|done].
  by rewrite is_Ok_bind, _add_arc_eq, for_each_add_arc.
Qed.

Lemma visit_accepts n : accepts n.
Proof.
  induction n as [ | value | name | op expr | op l r | ext IHext
    | decl_name body IHbody | block_items IHitems
    | cond iftrue iffalse IHtrue IHfalse | name args | cond stmt IHstmt
    | op lvalue rvalue | expr | kind ] using node_stmt_ind;
    intros v; try done.
  - destruct ext as [|ext0 rest]; [done|].
    apply Forall_cons in IHext as [IH0 _].
    destruct ext0, rest as [|ext1 rest]; try done. apply IH0.
  - simpl. destruct (String.eqb decl_name "main"); [apply IHbody|done].
  - destruct block_items as [[|head tail]|]; [done| |done].
    apply Forall_cons in IHitems as [IHhead IHtail]. simpl.
    rewrite is_Ok_bind, <- (IHhead v).
    destruct (StatementVisitor.visit head v) as [[[hi hf] v1]|e]; [|done].
    rewrite is_Ok_bind.
    rewrite <- (Compound_tail_accepts _ IHtail hf v1).
    by destruct (StatementVisitor.Compound_tail _ _ _ _) as [[fs v2]|e].
  - simpl. destruct (is_None cond) eqn:Hcond.
    { by destruct cond. }
    rewrite is_Ok_bind, condition_block_eq, <- is_Ok_scan.
    destruct (scan cond) as [e|e]; [|done]. cbv zeta.
    destruct (is_None iftrue && is_None iffalse) eqn:Hb; [done|].
    rewrite is_Ok_bind.
    pose proof (branch_accepts iftrue (Some "true")
                  (label_of (availabe_label_index v)) [] 
                  (add_used (variables e) (deref_variables e)
                     (label_of (availabe_label_index v))
                     (add_variables (elements (variables e) ++
                                     elements (deref_variables e))
                        (append_condition (label_of (availabe_label_index v))
                           (alloc v)))) IHtrue) as Ht.
    simpl in *. rewrite <- Ht. clear Ht.
    match goal with |- context [match ?m with Ok _ => _ | Raise _ => _ end] =>
      destruct m as [[F1 v1]|err] eqn:E1 end; [|done].
    simpl. rewrite is_Ok_bind.
    pose proof (branch_accepts iffalse (Some "false")
                  (label_of (availabe_label_index v)) F1 v1 IHfalse) as Hf.
    rewrite <- Hf. clear Hf.
    match goal with |- context [match ?m with Ok _ => _ | Raise _ => _ end] =>
      by destruct m as [[F2 v2]|err] end.
  - simpl. rewrite visit_FuncCall_eq. cbv zeta. destruct args as [args|]; [|done].
    rewrite <- (args_state_accepts args (label_of (availabe_label_index v))
                  (append_call (name, label_of (availabe_label_index v))
                     (add_function name
                        (append_label (label_of (availabe_label_index v))
                           (set_label_index (availabe_label_index v + 1) v))))).
    by destruct (args_state _ _ _).
  - simpl. destruct (is_None cond) eqn:Hcond.
    { by destruct cond. }
    rewrite is_Ok_bind, condition_block_eq, <- is_Ok_scan.
    destruct (scan cond) as [e|e]; [|done]. cbv beta iota zeta.
    cbn [is_Ok andb]. rewrite is_Ok_bind.
    pose proof (body_accepts stmt (label_of (availabe_label_index v))
                  (add_used (variables e) (deref_variables e)
                     (label_of (availabe_label_index v))
                     (add_variables (elements (variables e) ++
                                     elements (deref_variables e))
                        (append_condition (label_of (availabe_label_index v))
                           (alloc v)))) IHstmt) as Hb.
    rewrite <- Hb. clear Hb.
    match goal with |- context [match ?m with Ok _ => _ | Raise _ => _ end] =>
      by destruct m as [[[] v1]|err] end.
  - simpl. rewrite visit_Assignment_eq. unfold lvalue_ok.
    rewrite <- is_Ok_scan.
    destruct (scan rvalue) as [r|e]; [|done]. cbv zeta. simpl.
    destruct (scan lvalue) as [l|e]; [|done].
    unfold defined_state. by repeat case_bool_decide.
  - simpl. rewrite visit_Return_eq, <- is_Ok_scan.
    by destruct (scan expr).
Qed.

(** Over the trees of the model, where every call names its function
    by an identifier, [generate_cfg] returns relations, raising nothing,
    exactly for the trees of its fragment: a file holding one function
    called main, blocks with at least one statement, conditionals with
    a condition and at least one branch, loops with a condition, calls,
    returns with a value and assignments whose target names one
    variable, every expression in them built from constants,
    identifiers, unary and binary operations. *)
Theorem generate_cfg_accepts ast :
  is_Ok (generate_cfg ast) = accepted ast.
Proof.
  unfold generate_cfg. rewrite <- (visit_accepts ast StatementVisitor_init).
  by destruct (StatementVisitor.visit ast _) as [[[i f] v]|e].
Qed.

(** ** The address-of form *)

(** [&x] occurs in the expression [n]. *)
Fixpoint address_taken (x : string) (n : node) : bool :=
  match n with
  | UnaryOp op expr =>
      (String.eqb op "&" &&
       match expr with ID name => String.eqb name x | _ => false end) ||
      address_taken x expr
  | BinaryOp _ l r => address_taken x l || address_taken x r
  | _ => false
  end.

(** [*x] occurs in the expression [n]. *)
Fixpoint dereferenced (x : string) (n : node) : bool :=
  match n with
  | UnaryOp op expr =>
      (String.eqb op "*" &&
       match expr with ID name => String.eqb name x | _ => false end) ||
      dereferenced x expr
  | BinaryOp _ l r => dereferenced x l || dereferenced x r
  | _ => false
  end.

(** The tuple of [rhs_address] that belongs to an assignment with the
    right-hand side [rvalue] in the block [label]: one when the whole
    of [rvalue] is [&x], none otherwise. *)
Definition address_tag (rvalue : node) (label : string)
    : list (string * string) :=
  match rvalue with
  | UnaryOp op (ID x) =>
      if String.eqb op "&" && negb (String.eqb x "") then [(x, label)]
      else []
  | _ => []
  end.

(** The tuples of [rhs_address] that belong to the statement [n] when
    its first block gets the label of index [i]: those of its
    assignments, each at the label of its block, in the order of the
    walk. *)
Fixpoint address_tags (n : node) (i : nat) : list (string * string) :=
  match n with
  | FileAST ext =>
      match ext with
      | [ext0] => address_tags ext0 i
      | _ => []
      end
  | FuncDef _ body => address_tags body i
  | Compound (Some block_items) =>
      (fix go (items : list node) (i : nat) : list (string * string) :=
         match items with
         | [] => []
         | stmt :: items' => address_tags stmt i ++ go items' (i + blocks stmt)
         end) block_items i
  | If _ iftrue iffalse =>
      address_tags iftrue (i + 1) ++
      address_tags iffalse (i + 1 + blocks iftrue)
  | While _ stmt => address_tags stmt (i + 1)
  | Assignment _ _ rvalue => address_tag rvalue (label_of i)
  | _ => []
  end.

Fixpoint address_tags_of (items : list node) (i : nat)
    : list (string * string) :=
  match items with
  | [] => []
  | stmt :: items' =>
      address_tags stmt i ++ address_tags_of items' (i + blocks stmt)
  end.

Lemma address_tags_Compound items i :
  address_tags (Compound (Some items)) i = address_tags_of items i.
Proof.
  simpl. revert i. induction items as [|stmt items IH]; intros i; [done|].
  simpl. by rewrite IH.
Qed.

Lemma address_tag_eq rvalue label :
  (if truthy (is_address rvalue)
   then [(the (is_address rvalue), label)] else []) =
  address_tag rvalue label.
Proof.
  destruct rvalue as [| | |op expr| | | | | | | | | |]; try done.
  destruct expr; try done. simpl. by destruct (String.eqb op "&").
Qed.

(** *** The scan *)

Lemma visit_address_of expr self :
  ExpressionVisitor.visit (UnaryOp "&" expr) self =
  ExpressionVisitor.visit expr self.
Proof. rewrite visit_UnaryOp_eq. by destruct expr. Qed.

Lemma scan_grows n self self' :
  ExpressionVisitor.visit n self = Ok self' →
  variables self ⊆ variables self' ∧
  deref_variables self ⊆ deref_variables self'.
Proof.
  intros H. destruct (scan_accumulates _ _ _ H) as (e & _ & -> & ->).
  set_solver.
Qed.

Lemma address_taken_read x n :
  ∀ self self',
    ExpressionVisitor.visit n self = Ok self' →
    address_taken x n = true → x ∈ variables self'.
Proof.
  induction n as [| | |op expr IH|op l IHl r IHr| | | | | | | | |];
    intros self self'; try done.
  - rewrite visit_UnaryOp_eq.
    destruct (truthy (is_deref (UnaryOp op expr))) eqn:Hd.
    + simpl in Hd. destruct expr; try discriminate Hd.
      destruct (String.eqb_spec op "*") as [->|]; [|discriminate Hd]. done.
    + intros Hrun Hx. simpl in Hx. apply orb_true_iff in Hx as [Hx|Hx].
      * apply andb_true_iff in Hx as [_ Hx].
        destruct expr; try discriminate Hx.
        apply String.eqb_eq in Hx as ->.
        injection Hrun as <-. simpl. set_solver.
      * by eapply IH.
  - simpl.
    destruct (ExpressionVisitor.visit l self) as [self1|e] eqn:El; [|done].
    intros Er Hx. apply orb_true_iff in Hx as [Hx|Hx].
    + apply (scan_grows _ _ _ Er). by eapply IHl.
    + by eapply IHr.
Qed.

Lemma dereferenced_read x n :
  ∀ self self',
    ExpressionVisitor.visit n self = Ok self' →
    x ∈ deref_variables self' →
    x ∈ deref_variables self ∨ dereferenced x n = true.
Proof.
  induction n as [| | |op expr IH|op l IHl r IHr| | | | | | | | |];
    intros self self'; try done.
  - intros [= <-]. by left.
  - intros [= <-]. by left.
  - rewrite visit_UnaryOp_eq.
    destruct (truthy (is_deref (UnaryOp op expr))) eqn:Hd.
    + simpl in Hd. destruct expr; try discriminate Hd.
      destruct (String.eqb_spec op "*") as [->|]; [|discriminate Hd].
      intros [= <-]. simpl. intros Hx.
      apply elem_of_union in Hx as [Hx|Hx]; [by left|right].
      apply elem_of_singleton in Hx as ->. by rewrite String.eqb_refl.
    + intros Hrun Hx. destruct (IH _ _ Hrun Hx) as [?|Hd']; [by left|right].
      simpl. rewrite Hd'. apply orb_true_r.
  - simpl.
    destruct (ExpressionVisitor.visit l self) as [self1|e] eqn:El; [|done].
    intros Er Hx. destruct (IHr _ _ Er Hx) as [Hx1|Hr].
    + destruct (IHl _ _ El Hx1) as [?|Hl]; [by left|right].
      by rewrite Hl.
    + right. rewrite Hr. apply orb_true_r.
Qed.

(** *** The walk *)

Definition tags_ok (n : node) : Prop :=
  ∀ v frag v',
    StatementVisitor.visit n v = Ok (frag, v') →
    edb_rhs_address v' =
    edb_rhs_address v ++ address_tags n (availabe_label_index v).

Lemma condition_block_rhs_address cond v label v' :
  StatementVisitor.condition_block cond v = Ok (label, v') →
  edb_rhs_address v' = edb_rhs_address v.
Proof.
  rewrite condition_block_eq. destruct (scan cond) as [e|e]; [|done].
  cbv zeta. intros [= <- <-]. by state_norm.
Qed.

Lemma Compound_tail_tags tail :
  Forall tags_ok tail →
  ∀ prev v finals v',
    StatementVisitor.Compound_tail StatementVisitor.visit tail prev v =
      Ok (finals, v') →
    edb_rhs_address v' =
    edb_rhs_address v ++ address_tags_of tail (availabe_label_index v).
Proof.
  induction 1 as [|stmt tail Hstmt _ IH]; intros prev v finals v'; simpl.
  - intros [= <- <-]. by rewrite app_nil_r.
  - intros Hrun.
    apply bind_Ok in Hrun as ([ci cf] & v1 & Hvisit & Hrun).
    apply bind_Ok in Hrun as ([] & v2 & Harcs & Hrun).
    rewrite for_each_add_arc in Harcs. injection Harcs as <-.
    apply IH in Hrun. rewrite index_add_arcs in Hrun.
    destruct (visit_entry _ _ _ _ Hvisit) as [_ Hidx].
    rewrite Hrun, Hidx, app_assoc. f_equal. by apply Hstmt in Hvisit.
Qed.

Lemma branch_tags t tag cl F0 v1 F v2 :
  tags_ok t →
  (if negb (is_None t) then
     '(i, f) ← StatementVisitor.visit t;
     StatementVisitor._add_arc cl i tag;;
     mret (F0 ++ f)
   else mret (F0 ++ [cl])) v1 = Ok (F, v2) →
  edb_rhs_address v2 =
  edb_rhs_address v1 ++ address_tags t (availabe_label_index v1).
Proof.
  intros Ht Hrun. destruct (is_None t) eqn:Hnone; simpl in Hrun.
  - injection Hrun as <- <-. destruct t; try discriminate Hnone.
    by rewrite app_nil_r.
  - apply bind_Ok in Hrun as ([i f] & va & Hvisit & Hrun).
    apply bind_Ok in Hrun as ([] & vb & Harc & Hrun).
    rewrite _add_arc_eq in Harc. injection Harc as <-.
    injection Hrun as <- <-. by apply Ht in Hvisit.
Qed.

Lemma visit_tags n : tags_ok n.
Proof.
  induction n as
    [ | value | name | op expr | op l r | ext IHext | decl_name body IHbody
    | block_items IHitems | cond iftrue iffalse IHtrue IHfalse | name args
    | cond stmt IHstmt | op lvalue rvalue | expr | kind ]
    using node_stmt_ind; intros v frag v' Hrun;
    try discriminate Hrun.
  - simpl in Hrun. destruct ext as [|ext0 [|]]; try discriminate Hrun.
    apply Forall_cons in IHext as [Hext0 _].
    destruct ext0; try discriminate Hrun. exact (Hext0 _ _ _ Hrun).
  - simpl in Hrun. destruct (String.eqb decl_name "main"); [|discriminate Hrun].
    exact (IHbody _ _ _ Hrun).
  - destruct block_items as [[|head tail]|]; try discriminate Hrun.
    rewrite address_tags_Compound. simpl in Hrun.
    apply Forall_cons in IHitems as [Hhead Htail].
    apply bind_Ok in Hrun as ([hi hf] & v1 & Hvisit & Hrun).
    apply bind_Ok in Hrun as (finals & v2 & Htl & Hrun).
    injection Hrun as <- <-.
    destruct (visit_entry _ _ _ _ Hvisit) as [_ Hidx].
    apply (Compound_tail_tags _ Htail) in Htl.
    rewrite Htl, Hidx, (Hhead _ _ _ Hvisit). simpl. by rewrite app_assoc.
  - simpl in Hrun. destruct (is_None cond); [discriminate Hrun|].
    apply bind_Ok in Hrun as (cl & v1 & Hcond & Hrun).
    destruct (is_None iftrue && is_None iffalse); [discriminate Hrun|].
    apply bind_Ok in Hrun as (F1 & v2 & Htrue & Hrun).
    apply bind_Ok in Hrun as (F2 & v3 & Hfalse & Hrun).
    injection Hrun as <- <-.
    pose proof (condition_block_rhs_address _ _ _ _ Hcond) as Hc.
    destruct (condition_block_leaf _ _ _ _ Hcond) as (-> & Hleaf & _).
    apply leaf_index in Hleaf.
    pose proof (branch_index iftrue _ _ [] _ _ _ (visit_entry iftrue) Htrue)
      as Hidx.
    apply (branch_tags iftrue _ _ [] _ _ _ IHtrue) in Htrue.
    apply (branch_tags iffalse _ _ _ _ _ _ IHfalse) in Hfalse.
    simpl. rewrite Hfalse, Htrue, Hc, Hidx, Hleaf. by rewrite app_assoc.
  - simpl in Hrun. rewrite (visit_FuncCall_rhs_address _ _ _ _ _ Hrun).
    by rewrite app_nil_r.
  - simpl in Hrun. destruct (is_None cond); [discriminate Hrun|].
    apply bind_Ok in Hrun as (cl & v1 & Hcond & Hrun).
    apply bind_Ok in Hrun as ([] & v2 & Hbody & Hrun).
    injection Hrun as <- <-.
    pose proof (condition_block_rhs_address _ _ _ _ Hcond) as Hc.
    destruct (condition_block_leaf _ _ _ _ Hcond) as (-> & Hleaf & _).
    apply leaf_index in Hleaf. simpl.
    destruct (is_None stmt) eqn:Hnone; simpl in Hbody.
    + injection Hbody as <-. destruct stmt; try discriminate Hnone.
      by rewrite Hc, app_nil_r.
    + apply bind_Ok in Hbody as ([bi bf] & va & Hvisit & Hbody).
      apply bind_Ok in Hbody as ([] & vb & Harc & Hbody).
      rewrite _add_arc_eq in Harc. injection Harc as <-.
      rewrite for_each_add_arc in Hbody. injection Hbody as <-.
      apply IHstmt in Hvisit. simpl. by rewrite Hvisit, Hc, Hleaf.
  - simpl in Hrun. rewrite (visit_Assignment_rhs_address _ _ _ _ _ _ Hrun).
    by rewrite address_tag_eq.
  - simpl in Hrun. rewrite (visit_Return_rhs_address _ _ _ _ Hrun).
    by rewrite app_nil_r.
Qed.

Definition prog_address : node :=
  If (UnaryOp "&" (ID "x"))
     (Compound (Some
        [Assignment "=" (ID "y") (UnaryOp "&" (ID "x"));
         Assignment "=" (ID "z")
           (BinaryOp "+" (Constant "1") (UnaryOp "&" (ID "x")));
         FuncCall "f" (Some [UnaryOp "&" (ID "x")]);
         While (UnaryOp "&" (ID "x")) (Return (UnaryOp "&" (ID "x")))]))
     PyNone.

(** C6. The read-scan takes [&x] for a direct read of [x]: scanning
    [&e] is scanning [e]; every [x] whose address is taken anywhere in
    an expression is among its direct reads, and is among its
    dereferenced reads only if [*x] occurs in the expression too; the
    scan adds nothing to [rhs_address].  Over a whole walk, of any
    statement and from any visitor, [rhs_address] gains exactly one
    tuple for each assignment whose entire right-hand side is [&x], at
    the label of that assignment, and nothing else: no condition,
    return, call or nested occurrence of [&x] is tagged. *)
Theorem address_of_scanned_as_direct_read :
  (∀ x self,
     ExpressionVisitor.visit (UnaryOp "&" (ID x)) self =
       Ok {| variables := variables self ∪ {[x]};
             deref_variables := deref_variables self |}) ∧
  (∀ expr self,
     ExpressionVisitor.visit (UnaryOp "&" expr) self =
     ExpressionVisitor.visit expr self) ∧
  (∀ n e x,
     scan n = Ok e → address_taken x n = true → x ∈ variables e) ∧
  (∀ n e x,
     scan n = Ok e → x ∈ deref_variables e → dereferenced x n = true) ∧
  (∀ n v r v',
     StatementVisitor._process_expr n v = Ok (r, v') →
     edb_rhs_address v' = edb_rhs_address v) ∧
  (∀ n v frag v',
     StatementVisitor.visit n v = Ok (frag, v') →
     edb_rhs_address v' =
     edb_rhs_address v ++ address_tags n (availabe_label_index v)).
Proof.
  split; [done|]. split; [apply visit_address_of|].
  split; [|split; [|split]].
  - intros n e x Hscan. exact (address_taken_read x n _ _ Hscan).
  - intros n e x Hscan Hx.
    destruct (dereferenced_read x n _ _ Hscan Hx) as [Hin|]; [|done].
    simpl in Hin. set_solver.
  - apply _process_expr_rhs_address.
  - apply visit_tags.
Qed.

Lemma address_of_scanned_as_direct_read_witness :
  ∃ v', StatementVisitor.visit prog_address StatementVisitor_init =
          Ok (("l1", ["l5"; "l1"]), v') ∧
        edb_rhs_address v' = [("x", "l2")] ∧
        edb_used v' =
          [("x", "l1"); ("x", "l2"); ("x", "l3"); ("x", "l4"); ("x", "l5");
           ("x", "l6")] ∧
        edb_used_deref v' = [].
Proof.
  eassert (StatementVisitor.visit prog_address StatementVisitor_init =
             Ok (_, _)) as E
    by (vm_compute; reflexivity).
  pose proof (proj2 (proj2 (proj2 (proj2 (proj2
                address_of_scanned_as_direct_read)))) _ _ _ _ E) as H.
  eexists. split; [exact E|]. split; [exact H|]. by vm_compute.
Defined.
